(** * ModelLoader: file aggregation, URL resolution, format dispatch, scene swap

    A shallow embedding of [src/ModelLoader.ts] and the properties its
    specification states about it.

    Conventions of the embedding.
    - A JavaScript string is a [string]; [toLowerCase] acts on the ASCII
      letters, which is all that membership in the extension lists can
      observe.
    - A plain object used as a dictionary ([{ [key: string]: File }]) is a
      [gmap string File] holding its own properties and, under the name
      [__proto__], what was assigned there: that assignment never makes an
      own property, it replaces the prototype of the object.  Reading a
      property ([readKey]) goes through the own properties and then
      through what a plain object inherits.  The object returned by
      [unzipSync] is enumerated with [for ... in], so it is kept as an
      association list in enumeration order, read the same way
      ([zipRead]).
    - Callbacks queued by the browser are kept in an explicit queue; any of
      them may run next.
    - The format decoders of three.js and [unzipSync] are opaque: they are
      the fields of a record, each returning a result or an error. *)

From Stdlib Require Import Ascii String List Bool Arith Lia.
From stdpp Require Import base option list strings gmap fin_maps.
Import ListNotations.

#[local] Set Warnings "-register-all".

Local Open Scope string_scope.
Local Open Scope list_scope.

(** ** Strings *)

(** [String.prototype.toLowerCase], on the ASCII range. *)
Definition lower_ascii (c : ascii) : ascii :=
  let n := nat_of_ascii c in
  if ((65 <=? n) && (n <=? 90))%nat then ascii_of_nat (n + 32) else c.

Fixpoint toLowerCase (s : string) : string :=
  match s with
  | EmptyString => EmptyString
  | String c r => String (lower_ascii c) (toLowerCase r)
  end.

(** [s.split(sep)] for a one-character separator: never empty. *)
Fixpoint split (sep : ascii) (s : string) : list string :=
  match s with
  | EmptyString => [EmptyString]
  | String c r =>
      if Ascii.eqb c sep then EmptyString :: split sep r
      else match split sep r with
           | h :: t => String c h :: t
           | [] => [String c EmptyString]
           end
  end.

(** [name.split('.').pop()?.toLowerCase() || ''] *)
Definition extensionOf (filename : string) : string :=
  default "" (toLowerCase <$> last (split "." filename)).

(** [supportedExtensions.includes(ext)] *)
Definition includes (exts : list string) (ext : string) : bool :=
  existsb (String.eqb ext) exts.
Global Arguments includes : simpl never.

(** [s.slice(1)] *)
Definition slice1 (s : string) : string :=
  match s with
  | EmptyString => EmptyString
  | String _ r => r
  end.

(** [url.replace(/^(\.?\/)/, '')]: an optional dot followed by a slash, at
    the start of the string only. *)
Definition stripLeading (url : string) : string :=
  match url with
  | String "." (String "/" r) => r
  | String "/" r => r
  | _ => url
  end.

(** ** Files *)

(** A [File]: its name and bytes.  [unreadable] stands for a file whose
    read ends in the reader's [error] event instead of [load]. *)
Record File := mkFile {
  name : string;
  bytes : string;
  unreadable : bool
}.

Global Instance File_eq_dec : EqDecision File.
Proof. solve_decision. Defined.

(** ** Plain objects

    The members a plain object inherits from [Object.prototype] under a
    string name; all of them are functions. *)
Definition objectPrototypeNames : list string :=
  ["constructor"; "toString"; "toLocaleString"; "valueOf"; "hasOwnProperty";
   "isPrototypeOf"; "propertyIsEnumerable"; "__defineGetter__";
   "__defineSetter__"; "__lookupGetter__"; "__lookupSetter__"].

(** A name that finds something on every plain object: the accessor
    [__proto__] or a member of [Object.prototype]. *)
Definition builtinName (key : string) : bool :=
  String.eqb key "__proto__" || existsb (String.eqb key) objectPrototypeNames.

(** What [object[key]] finds.  [Stored]: a value that was assigned, under
    the key itself or, for [__proto__], as the prototype.  [Builtin]: a
    function of [Object.prototype], or [Object.prototype] itself for
    [__proto__]; truthy, and neither a file nor bytes.  [OnPrototype]: the
    key is none of these and a value was made the prototype, so the key is
    looked up among the members of that value (a file has [size] and
    [name], bytes have [length]); what is found there is left open.
    [Absent]: [undefined]. *)
Inductive Slot (A : Type) :=
| Stored (value : A)
| Builtin
| OnPrototype
| Absent.
Arguments Stored {A} value.
Arguments Builtin {A}.
Arguments OnPrototype {A}.
Arguments Absent {A}.

(** [filesMap[key]] *)
Definition readKey (map : gmap string File) (key : string) : Slot File :=
  match map !! key with
  | Some file => Stored file
  | None =>
      if builtinName key then Builtin
      else match map !! "__proto__" with
           | Some _ => OnPrototype
           | None => Absent
           end
  end.

(** [Object.keys(map)]: the own properties. *)
Definition ownKeys (map : gmap string File) : gset string :=
  dom map ∖ {["__proto__"]}.

(** ** createFilesMap

    [map[file.name] = file]; for a file named [__proto__] this makes the
    file the prototype of [map], kept here under that name. *)
Definition createFilesMap (files : list File) : gmap string File :=
  foldl (fun map file => <[name file := file]> map) ∅ files.

(** ** Primary-file selection (loadModel, step 3) *)

Definition topLevelExtensions : list string :=
  ["stl"; "obj"; "ply"; "gltf"; "glb"; "fbx"; "zip"].

Definition isPrimary (f : File) : bool :=
  includes topLevelExtensions (extensionOf (name f)).

(** [files.find(...)] *)
Definition primaryFile (files : list File) : option File :=
  List.find isPrimary files.

(** ** getFilesFromItemList

    The promise executor runs synchronously over the items; [readEntries]
    and [entry.file] only queue a callback, which the browser runs later, in
    an order of its choosing. *)

(** A file-system entry as [handleEntry] inspects it.  [Directory] carries
    what the single [readEntries] call delivers; [FileEntry] carries
    [fullPath] and what [entry.file] delivers, [None] when the read fails
    (only the success callback is given, so nothing runs then);
    [OtherEntry] has neither [isDirectory] nor [isFile]. *)
Inductive Entry :=
| Directory (entries : list Entry)
| FileEntry (fullPath : string) (file : option File)
| OtherEntry.

(** A [DataTransferItem]; [webkitGetAsEntry] may be [null]. *)
Record Item := mkItem {
  kind : string;
  webkitGetAsEntry : option Entry
}.

(** A callback queued by [handleEntry], waiting to be run. *)
Inductive Callback :=
| ReadEntries (entries : list Entry)
| FileCallback (fullPath : string) (file : File).

Inductive PromiseState (A : Type) :=
| Pending
| Fulfilled (value : A)
| Rejected.
Arguments Pending {A}.
Arguments Fulfilled {A} value.
Arguments Rejected {A}.

(** The value [resolve] is called with.  [files] and [filesMap] are shared
    with the closure; the awaiting code runs once the executor or the
    callback that called [resolve] has finished and before any other
    callback, and neither changes them after the call, so it reads them as
    they are at the call. *)
Definition Aggregate : Type := list File * gmap string File.

Record AggState := mkAgg {
  itemsCount : nat;
  itemsTotal : nat;
  files : list File;
  filesMap : gmap string File;
  promise : PromiseState Aggregate;
  resolveCalls : nat;
  pending : list Callback
}.

Definition initAgg : AggState := mkAgg 0 0 [] ∅ Pending 0 [].

(** [resolve({ files, filesMap })]: settles the promise if it is still
    pending. *)
Definition resolve (st : AggState) : AggState :=
  mkAgg (itemsCount st) (itemsTotal st) (files st) (filesMap st)
        (match promise st with
         | Pending => Fulfilled (files st, filesMap st)
         | p => p
         end)
        (S (resolveCalls st)) (pending st).

(** [itemsCount++] *)
Definition countHandled (st : AggState) : AggState :=
  mkAgg (S (itemsCount st)) (itemsTotal st) (files st)
        (filesMap st) (promise st) (resolveCalls st) (pending st).

Definition onEntryHandled (st : AggState) : AggState :=
  let st := countHandled st in
  if (itemsCount st =? itemsTotal st)%nat then resolve st else st.

Definition enqueue (t : Callback) (st : AggState) : AggState :=
  mkAgg (itemsCount st) (itemsTotal st) (files st) (filesMap st)
        (promise st) (resolveCalls st) (pending st ++ [t]).

Definition countEntry (st : AggState) : AggState :=
  mkAgg (itemsCount st) (S (itemsTotal st)) (files st) (filesMap st)
        (promise st) (resolveCalls st) (pending st).

Definition handleEntry (st : AggState) (entry : Entry) : AggState :=
  let st := countEntry st in
  match entry with
  | Directory entries => enqueue (ReadEntries entries) st
  | FileEntry fullPath (Some file) => enqueue (FileCallback fullPath file) st
  | FileEntry _ None => st
  | OtherEntry => onEntryHandled st
  end.

(** [files.push(file); filesMap[entry.fullPath.slice(1)] = file]; a full
    path [/__proto__] makes the file the prototype of [filesMap], kept
    under that name. *)
Definition register (fullPath : string) (file : File) (st : AggState) : AggState :=
  mkAgg (itemsCount st) (itemsTotal st) (files st ++ [file])
        (<[slice1 fullPath := file]> (filesMap st))
        (promise st) (resolveCalls st) (pending st).

(** The body of a queued callback. *)
Definition runCallback (t : Callback) (st : AggState) : AggState :=
  match t with
  | ReadEntries entries => onEntryHandled (foldl handleEntry st entries)
  | FileCallback fullPath file => onEntryHandled (register fullPath file st)
  end.

Definition setPending (l : list Callback) (st : AggState) : AggState :=
  mkAgg (itemsCount st) (itemsTotal st) (files st) (filesMap st)
        (promise st) (resolveCalls st) l.

(** A throw inside the executor rejects the promise unless it is settled. *)
Definition throwInExecutor (st : AggState) : AggState :=
  mkAgg (itemsCount st) (itemsTotal st) (files st) (filesMap st)
        (match promise st with Pending => Rejected | p => p end)
        (resolveCalls st) (pending st).

(** The [for (const item of items)] loop of the executor.  On a [null]
    entry [itemsTotal++] has run when [entry.isDirectory] throws, and the
    loop is abandoned. *)
Fixpoint executor (items : list Item) (st : AggState) : AggState :=
  match items with
  | [] => st
  | item :: rest =>
      if String.eqb (kind item) "file" then
        match webkitGetAsEntry item with
        | Some entry => executor rest (handleEntry st entry)
        | None => throwInExecutor (countEntry st)
        end
      else executor rest st
  end.

Definition getFilesFromItemList (items : list Item) : AggState :=
  executor items initAgg.

(** One turn of the event loop: some queued callback runs. *)
Inductive step : AggState -> AggState -> Prop :=
| step_run pre t post st :
    pending st = pre ++ t :: post ->
    step st (runCallback t (setPending (pre ++ post) st)).

Inductive steps : AggState -> AggState -> Prop :=
| steps_refl st : steps st st
| steps_step st1 st2 st3 : step st1 st2 -> steps st2 st3 -> steps st1 st3.

(** Running the callbacks in queue order until none is left. *)
Fixpoint drain (fuel : nat) (st : AggState) : AggState :=
  match fuel, pending st with
  | S fuel', t :: rest => drain fuel' (runCallback t (setPending rest st))
  | _, _ => st
  end.

Definition fileItem (e : Entry) : Item := mkItem "file" (Some e).

(** ** URL modifiers *)

(** What [URL.createObjectURL] was given: a dropped [File], or a [Blob]
    built from bytes with a content type. *)
Inductive Blob :=
| OfFile (file : File)
| OfBytes (data : string) (type : string).

Definition blobBytes (b : Blob) : string :=
  match b with
  | OfFile file => bytes file
  | OfBytes data _ => data
  end.

(** How a call of a URL modifier ends: with an object URL, here the index
    of its blob in the store of object URLs; with a reference handed back;
    with the [TypeError] that [URL.createObjectURL] throws when it is given
    something that is not a blob ([Thrown]); or, when the reference names
    a member of a value that was made the prototype of the table, in a way
    that is left open ([Inherited], see [OnPrototype]). *)
Inductive Address :=
| ObjectURL (id : nat)
| Reference (url : string)
| Thrown
| Inherited (member : string).

Definition createObjectURL (b : Blob) (store : list Blob) : Address * list Blob :=
  (ObjectURL (length store), store ++ [b]).

(** Reading an address back: the bytes behind an object URL. *)
Definition fetchBytes (store : list Blob) (a : Address) : option string :=
  match a with
  | ObjectURL id => blobBytes <$> store !! id
  | _ => None
  end.

(** The entry of a given path in the object returned by [unzipSync], kept
    as the list of its entries in the order [for ... in] visits them.
    (Keys that are array indices come first there; they have no letter,
    hence no supported extension.)  An entry named [__proto__] is no own
    property: its bytes became the prototype of the object; it is kept in
    the list under that name, where its extension keeps the loop from
    picking it. *)
Fixpoint zipLookup (zip : list (string * string)) (url : string) : option string :=
  match zip with
  | [] => None
  | (path, data) :: rest =>
      if String.eqb path url then Some data else zipLookup rest url
  end.

(** [zip[url]] *)
Definition zipRead (zip : list (string * string)) (url : string) : Slot string :=
  match zipLookup zip url with
  | Some data => Stored data
  | None =>
      if builtinName url then Builtin
      else match zipLookup zip "__proto__" with
           | Some _ => OnPrototype
           | None => Absent
           end
  end.

(** The modifier installed by [loadModel] on its manager.  A function of
    [Object.prototype] passes [if (file)] and makes [URL.createObjectURL]
    throw. *)
Definition outerURLModifier (filesMap : gmap string File) (url : string)
    (store : list Blob) : Address * list Blob :=
  let key := stripLeading url in
  match readKey filesMap key with
  | Stored file => createObjectURL (OfFile file) store
  | Builtin => (Thrown, store)
  | OnPrototype => (Inherited key, store)
  | Absent => (Reference url, store)
  end.

(** The modifier installed on [zipManager] in the [zip] case.  A function
    of [Object.prototype] passes [if (file)]; its [buffer] is [undefined],
    and [new Blob([undefined])] holds the text [undefined]. *)
Definition zipURLModifier (zip : list (string * string)) (url : string)
    (store : list Blob) : Address * list Blob :=
  match zipRead zip url with
  | Stored data => createObjectURL (OfBytes data "application/octet-stream") store
  | Builtin => createObjectURL (OfBytes "undefined" "application/octet-stream") store
  | OnPrototype => (Inherited url, store)
  | Absent => (Reference url, store)
  end.

(** A [THREE.LoadingManager], identified by the modifier it carries. *)
Inductive LoadingManager :=
| OuterManager (filesMap : gmap string File)
| ZipManager (zip : list (string * string)).

Definition resolveURL (manager : LoadingManager) : string -> list Blob -> Address * list Blob :=
  match manager with
  | OuterManager filesMap => outerURLModifier filesMap
  | ZipManager zip => zipURLModifier zip
  end.

(** ** Scene-graph objects *)

Record BufferGeometry := mkGeometry {
  index : option (list nat);
  attributes : list string
}.

Definition hasAttribute (g : BufferGeometry) (a : string) : bool :=
  bool_decide (a ∈ attributes g).

(** [computeVertexNormals] adds a [normal] attribute when there is a
    [position]; the index and the other attributes stay. *)
Definition computeVertexNormals (g : BufferGeometry) : BufferGeometry :=
  if hasAttribute g "position" && negb (hasAttribute g "normal")
  then mkGeometry (index g) (attributes g ++ ["normal"])
  else g.

Inductive Side := FrontSide | DoubleSide.

(** The two materials the loader builds; [PointsMaterial] has size 0.01. *)
Inductive Material :=
| MeshStandardMaterial (vertexColors : bool) (side : Side)
| PointsMaterial (vertexColors : bool).

Definition vertexColors (m : Material) : bool :=
  match m with
  | MeshStandardMaterial vc _ => vc
  | PointsMaterial vc => vc
  end.

(** What an object is: a mesh or a point collection built here, or any
    other object of three.js, such as a graph produced by a decoder, kept
    as an opaque tag. *)
Inductive Shape :=
| Mesh (geometry : BufferGeometry) (material : Material)
| Points (geometry : BufferGeometry) (material : Material)
| Decoded (tag : string).

Record Object3D := mkObject {
  obj_name : string;
  animations : list string;
  isCamera : bool;
  isLight : bool;
  isAxesHelper : bool;
  shape : Shape
}.

Global Instance BufferGeometry_eq_dec : EqDecision BufferGeometry.
Proof. solve_decision. Defined.
Global Instance Side_eq_dec : EqDecision Side.
Proof. solve_decision. Defined.
Global Instance Material_eq_dec : EqDecision Material.
Proof. solve_decision. Defined.
Global Instance Shape_eq_dec : EqDecision Shape.
Proof. solve_decision. Defined.
Global Instance Object3D_eq_dec : EqDecision Object3D.
Proof. solve_decision. Defined.

(** [new THREE.Mesh(...)] and [new THREE.Points(...)]: unnamed, no clips,
    none of the helper flags. *)
Definition newObject (s : Shape) : Object3D := mkObject "" [] false false false s.

Definition setName (o : Object3D) (n : string) : Object3D :=
  mkObject n (animations o) (isCamera o) (isLight o) (isAxesHelper o) (shape o).

Definition pushAnimations (o : Object3D) (clips : list string) : Object3D :=
  mkObject (obj_name o) (animations o ++ clips) (isCamera o) (isLight o)
           (isAxesHelper o) (shape o).

(** ** loadFile *)

Inductive LoadError :=
| FileReadFailed
| ReaderError
| NoModelInZip
| UnsupportedFormat (extension : string)
| DecoderError (message : string).

Inductive Contents :=
| Text (s : string)
| ArrayBuffer (b : string).

(** [!contents]: only the empty string is falsy. *)
Definition falsy (c : Contents) : bool :=
  match c with
  | Text EmptyString => true
  | _ => false
  end.

Definition payload (c : Contents) : string :=
  match c with
  | Text s => s
  | ArrayBuffer b => b
  end.

(** [readAsText] for [gltf] and [obj], [readAsArrayBuffer] otherwise;
    [None] is the reader's [error] event. *)
Definition readFile (extension : string) (file : File) : option Contents :=
  if unreadable file then None
  else if includes ["gltf"; "obj"] extension then Some (Text (bytes file))
  else Some (ArrayBuffer (bytes file)).

(** The cases of the [switch]. *)
Inductive Format := FBX | GLB | GLTF | OBJ | PLY | STL | ZIP.

Definition formatOf (extension : string) : option Format :=
  if String.eqb extension "fbx" then Some FBX
  else if String.eqb extension "glb" then Some GLB
  else if String.eqb extension "gltf" then Some GLTF
  else if String.eqb extension "obj" then Some OBJ
  else if String.eqb extension "ply" then Some PLY
  else if String.eqb extension "stl" then Some STL
  else if String.eqb extension "zip" then Some ZIP
  else None.

(** The transcoders [createGLTFLoader] instantiates. *)
Inductive Transcoder := DRACOLoader | KTX2Loader.

Inductive Event :=
| Created (t : Transcoder)
| Disposed (t : Transcoder).

Global Instance Transcoder_eq_dec : EqDecision Transcoder.
Proof. solve_decision. Defined.
Global Instance Event_eq_dec : EqDecision Event.
Proof. solve_decision. Defined.

(** Transcoders of kind [t] created and not yet disposed of. *)
Definition live (t : Transcoder) (log : list Event) : nat :=
  count_occ Event_eq_dec log (Created t) - count_occ Event_eq_dec log (Disposed t).

Record GLTFResult := mkGLTF {
  gltf_scene : Object3D;
  gltf_animations : list string
}.

(** The decoders of three.js and [unzipSync], each failing with an error
    or producing its result. *)
Record Decoders := mkDecoders {
  FBXLoader_parse : LoadingManager -> string -> LoadError + Object3D;
  GLTFLoader_parse : LoadingManager -> Contents -> LoadError + GLTFResult;
  OBJLoader_parse : LoadingManager -> string -> LoadError + Object3D;
  PLYLoader_parse : string -> LoadError + BufferGeometry;
  STLLoader_parse : string -> LoadError + BufferGeometry;
  unzipSync : string -> LoadError + list (string * string)
}.

Inductive Outcome :=
| Resolved (object : Object3D)
| Failed (error : LoadError).

(** The [ply] case after parsing. *)
Definition wrapPLY (parsed : BufferGeometry) (filename : string) : Object3D :=
  let geometry := computeVertexNormals parsed in
  let object :=
    match index geometry with
    | Some _ =>
        newObject (Mesh geometry
          (MeshStandardMaterial (hasAttribute geometry "color") DoubleSide))
    | None =>
        newObject (Points geometry (PointsMaterial (hasAttribute geometry "color")))
    end in
  setName object filename.

(** The [stl] case after parsing. *)
Definition wrapSTL (geometry : BufferGeometry) (filename : string) : Object3D :=
  setName (newObject (Mesh geometry (MeshStandardMaterial false FrontSide))) filename.

(** The [glb] and [gltf] cases: the same code on different contents. *)
Definition loadGLTF (dec : Decoders) (manager : LoadingManager)
    (contents : Contents) (filename : string) (log : list Event)
    : Outcome * list Event :=
  let log := log ++ [Created DRACOLoader; Created KTX2Loader] in
  match GLTFLoader_parse dec manager contents with
  | inr result =>
      let scene := pushAnimations (setName (gltf_scene result) filename)
                                  (gltf_animations result) in
      (Resolved scene, log ++ [Disposed DRACOLoader; Disposed KTX2Loader])
  | inl error => (Failed error, log)
  end.

Definition zipExtensions : list string :=
  ["gltf"; "glb"; "fbx"; "obj"; "stl"; "ply"].

Definition lift (r : LoadError + Object3D) (filename : string) : Outcome :=
  match r with
  | inr object => Resolved (setName object filename)
  | inl error => Failed error
  end.

(** The [for (const path in zip)] loop: the first entry with a supported
    extension is loaded and the loop is left; [noMatch] is what follows the
    loop. *)
Fixpoint scanZip {A : Type} (loadInner : File -> A) (noMatch : A)
    (entries : list (string * string)) : A :=
  match entries with
  | [] => noMatch
  | (path, fileData) :: rest =>
      let ext := extensionOf path in
      if includes zipExtensions ext then loadInner (mkFile path fileData false)
      else scanZip loadInner noMatch rest
  end.

(** The body of [loadFile], with the recursive call as a parameter. *)
Definition loadFileBody (dec : Decoders)
    (loadFile : File -> LoadingManager -> list Event -> option (Outcome * list Event))
    (file : File) (manager : LoadingManager) (log : list Event)
    : option (Outcome * list Event) :=
  let filename := name file in
  let extension := extensionOf filename in
  match readFile extension file with
  | None => Some (Failed ReaderError, log)
  | Some contents =>
      if falsy contents then Some (Failed FileReadFailed, log)
      else
        match formatOf extension with
        | Some FBX =>
            Some (lift (FBXLoader_parse dec manager (payload contents)) filename, log)
        | Some GLB | Some GLTF =>
            Some (loadGLTF dec manager contents filename log)
        | Some OBJ =>
            Some (lift (OBJLoader_parse dec manager (payload contents)) filename, log)
        | Some PLY =>
            match PLYLoader_parse dec (payload contents) with
            | inr geometry => Some (Resolved (wrapPLY geometry filename), log)
            | inl error => Some (Failed error, log)
            end
        | Some STL =>
            match STLLoader_parse dec (payload contents) with
            | inr geometry => Some (Resolved (wrapSTL geometry filename), log)
            | inl error => Some (Failed error, log)
            end
        | Some ZIP =>
            match unzipSync dec (payload contents) with
            | inl error => Some (Failed error, log)
            | inr zip =>
                let zipManager := ZipManager zip in
                scanZip (fun innerFile => loadFile innerFile zipManager log)
                        (Some (Failed NoModelInZip, log)) zip
            end
        | None => Some (Failed (UnsupportedFormat extension), log)
        end
  end.

(** [loadFile], with fuel for the recursive call of the [zip] case; [None]
    when the fuel runs out. *)
Fixpoint loadFile (dec : Decoders) (fuel : nat) (file : File)
    (manager : LoadingManager) (log : list Event) : option (Outcome * list Event) :=
  match fuel with
  | O => None
  | S fuel => loadFileBody dec (loadFile dec fuel) file manager log
  end.

(** ** The target scene *)

Record Scene := mkScene { children : list Object3D }.

(** The objects [clearScene] keeps. *)
Definition isHelper (child : Object3D) : bool :=
  isCamera child || isLight child || isAxesHelper child.

(** [children.indexOf(object)] followed by [splice(index, 1)]. *)
Fixpoint spliceOut (object : Object3D) (l : list Object3D) : list Object3D :=
  match l with
  | [] => []
  | x :: rest => if decide (x = object) then rest else x :: spliceOut object rest
  end.

Definition remove (scene : Scene) (object : Object3D) : Scene :=
  mkScene (spliceOut object (children scene)).

Definition add (scene : Scene) (object : Object3D) : Scene :=
  mkScene (children scene ++ [object]).

Definition clearScene (scene : Scene) : Scene :=
  let objectsToRemove :=
    List.filter (fun child => negb (isHelper child)) (children scene) in
  foldl remove scene objectsToRemove.

(** ** loadModel *)

Inductive Dropped :=
| ItemList (items : list Item)
| FileList (files : list File).

(** What [alert] shows. *)
Inductive Notice :=
| NoSupportedFile
| LoadFailure (error : LoadError).

Record Run := mkRun {
  scene_after : Scene;
  alerts : list Notice;
  log_after : list Event
}.

(** How a call of [loadModel] ends: it returns, or the promise it awaits
    is rejected and it throws. *)
Inductive Ending :=
| Returned (run : Run)
| Threw.

Section LoadModel.

Variable dec : Decoders.

(** [normalizeModel] rescales and recentres the object it is given; it
    reads and writes nothing else. *)
Variable normalizeModel : Object3D -> Object3D.

(** [loadModel] from the point where [files] and [filesMap] are known.
    The manager also gets a handler for [.tga] textures, which only the
    decoders consult. *)
Definition loadModelFrom (agg : Aggregate) (scene : Scene) (log : list Event)
    : option Run :=
  let '(files, filesMap) := agg in
  if (length files =? 0)%nat then Some (mkRun scene [] log)
  else
    let manager := OuterManager filesMap in
    match primaryFile files with
    | Some primaryFile =>
        match loadFile dec 2 primaryFile manager log with
        | Some (Resolved object, log') =>
            let object := normalizeModel object in
            Some (mkRun (add (clearScene scene) object) [] log')
        | Some (Failed error, log') =>
            Some (mkRun scene [LoadFailure error] log')
        | None => None
        end
    | None => Some (mkRun scene [NoSupportedFile] log)
    end.

(** [loadModel] on what was dropped.  For an item list it goes on when the
    promise of [getFilesFromItemList] is fulfilled, with the value of the
    promise; while the promise is pending the call has no ending. *)
Inductive loadModel : Dropped -> Scene -> list Event -> Ending -> Prop :=
| loadModel_files files scene log run :
    loadModelFrom (files, createFilesMap files) scene log = Some run ->
    loadModel (FileList files) scene log (Returned run)
| loadModel_items items st agg scene log run :
    steps (getFilesFromItemList items) st ->
    promise st = Fulfilled agg ->
    loadModelFrom agg scene log = Some run ->
    loadModel (ItemList items) scene log (Returned run)
| loadModel_rejected items st scene log :
    steps (getFilesFromItemList items) st ->
    promise st = Rejected ->
    loadModel (ItemList items) scene log Threw.

End LoadModel.

(** ** The specification's vocabulary *)

Fixpoint hasDot (s : string) : bool :=
  match s with
  | EmptyString => false
  | String c r => Ascii.eqb c "." || hasDot r
  end.

(** The final dot-segment of a name: what follows its last dot, or the
    whole name when it has none. *)
Fixpoint finalDotSegment (s : string) : string :=
  match s with
  | EmptyString => EmptyString
  | String c r =>
      if hasDot r then finalDotSegment r
      else if Ascii.eqb c "." then r else s
  end.

(** Two names that differ in letter case only. *)
Definition sameUpToCase (a b : string) : Prop := toLowerCase a = toLowerCase b.

(** A name whose extension is in the supported top-level set. *)
Definition supportedName (n : string) : Prop :=
  toLowerCase (finalDotSegment n) ∈ ["stl"; "obj"; "ply"; "gltf"; "glb"; "fbx"; "zip"].

(** ** Sample decoders

    Stand-ins for the external decoders, to run the loader on concrete
    files. *)

(** Every decoder rejects what it is given. *)
Definition rejecting : Decoders :=
  mkDecoders
    (fun _ _ => inl (DecoderError "fbx"))
    (fun _ _ => inl (DecoderError "gltf"))
    (fun _ _ => inl (DecoderError "obj"))
    (fun _ => inl (DecoderError "ply"))
    (fun _ => inl (DecoderError "stl"))
    (fun _ => inl (DecoderError "zip")).

Definition sampleGroup (tag : string) : Object3D :=
  mkObject "" [] false false false (Decoded tag).

(** The archive [bundle.zip] of the specification's example. *)
Definition bundle : list (string * string) :=
  [("readme.txt", "hello"); ("mesh/part.stl", "solid part")].

(** Decoders that accept: [PLYLoader] yields an indexed geometry without
    colours, [STLLoader] a triangle soup (no index) with colours, and
    [unzipSync] the entries of [bundle]. *)
Definition accepting : Decoders :=
  mkDecoders
    (fun _ _ => inr (sampleGroup "fbx"))
    (fun _ _ => inr (mkGLTF (sampleGroup "gltf") ["walk"]))
    (fun _ _ => inr (sampleGroup "obj"))
    (fun _ => inr (mkGeometry (Some [0; 1; 2]) ["position"]))
    (fun _ => inr (mkGeometry None ["position"; "normal"; "color"]))
    (fun _ => inr bundle).


(** The test of the loop over an archive's entries. *)
Definition modelEntry (e : string * string) : bool :=
  includes zipExtensions (extensionOf e.1).

(** The [forEach] of [clearScene] on the list of children. *)
Definition spliceAll (l removed : list Object3D) : list Object3D :=
  foldl (fun l object => spliceOut object l) l removed.

(** The files below an entry with their paths, as [entry.file] delivers
    them. *)
Fixpoint entryFiles (e : Entry) : list (string * File) :=
  match e with
  | Directory entries => flat_map entryFiles entries
  | FileEntry fullPath (Some file) => [(fullPath, file)]
  | FileEntry _ None => []
  | OtherEntry => []
  end.

(** An entry below which every file can be read. *)
Fixpoint readable (e : Entry) : bool :=
  match e with
  | Directory entries => forallb readable entries
  | FileEntry _ (Some _) => true
  | FileEntry _ None => false
  | OtherEntry => true
  end.

(** The number of entries at and below an entry. *)
Fixpoint weight (e : Entry) : nat :=
  match e with
  | Directory entries => S (list_sum (List.map weight entries))
  | _ => 1
  end.

(** The callback [handleEntry] queues for an entry, if any. *)
Definition queued (e : Entry) : list Callback :=
  match e with
  | Directory entries => [ReadEntries entries]
  | FileEntry fullPath (Some file) => [FileCallback fullPath file]
  | _ => []
  end.

Definition callbackFiles (t : Callback) : list (string * File) :=
  match t with
  | ReadEntries entries => flat_map entryFiles entries
  | FileCallback fullPath file => [(fullPath, file)]
  end.

Definition callbackReadable (t : Callback) : bool :=
  match t with
  | ReadEntries entries => forallb readable entries
  | FileCallback _ _ => true
  end.

Definition callbackWeight (t : Callback) : nat :=
  match t with
  | ReadEntries entries => S (list_sum (List.map weight entries))
  | FileCallback _ _ => 1
  end.

(** The work left in a state: the entries still to be visited. *)
Definition workLeft (st : AggState) : nat :=
  list_sum (List.map callbackWeight (pending st)).

(** The table obtained by registering files in a given order. *)
Definition tableOf (registered : list (string * File)) : gmap string File :=
  foldl (fun m pf => <[slice1 pf.1 := pf.2]> m) ∅ registered.

(** The entries of the items of kind [file]; [None] when one of them has
    no entry. *)
Fixpoint droppedEntries (items : list Item) : option (list Entry) :=
  match items with
  | [] => Some []
  | item :: rest =>
      if String.eqb (kind item) "file" then
        match webkitGetAsEntry item, droppedEntries rest with
        | Some e, Some es => Some (e :: es)
        | _, _ => None
        end
      else droppedEntries rest
  end.

(** A drop whose first entry is a file or a directory, and in which every
    entry is there and every file can be read. *)
Definition orderlyDrop (items : list Item) : bool :=
  match droppedEntries items with
  | Some (e :: es) =>
      match e with OtherEntry => false | _ => forallb readable (e :: es) end
  | _ => false
  end.

(** The files of a drop, with their paths. *)
Definition dropFiles (items : list Item) : list (string * File) :=
  flat_map entryFiles (default [] (droppedEntries items)).

(** The state between two callbacks in an orderly drop whose files are
    [all]: every counted entry is completed or has its callback queued;
    the promise is pending while a callback is queued, and resolved, once,
    with the files and the table as they are, when none is; the files
    registered and those still to come make up [all]. *)
Record Orderly (all : list (string * File)) (st : AggState) : Prop := mkOrderly {
  orderly_balance : itemsTotal st = itemsCount st + length (pending st);
  orderly_readable : forallb callbackReadable (pending st) = true;
  orderly_waiting :
    pending st <> [] -> promise st = Pending /\ resolveCalls st = 0;
  orderly_resolved :
    pending st = [] ->
    promise st = Fulfilled (files st, filesMap st) /\ resolveCalls st = 1;
  orderly_files :
    exists registered,
      files st = registered.*2 /\
      filesMap st = tableOf registered /\
      registered ++ flat_map callbackFiles (pending st) ≡ₚ all
}.



Definition isMesh (o : Object3D) : bool :=
  match shape o with Mesh _ _ => true | _ => false end.

Definition isPoints (o : Object3D) : bool :=
  match shape o with Points _ _ => true | _ => false end.

(** The [vertexColors] flag of the material of a mesh or point collection. *)
Definition objectVertexColors (o : Object3D) : option bool :=
  match shape o with
  | Mesh _ m | Points _ m => Some (vertexColors m)
  | Decoded _ => None
  end.

(** A scene with a camera, a light, an axes helper and a model loaded
    earlier.  [axes] is what [new THREE.AxesHelper()] builds: line
    segments of type [AxesHelper]; three.js sets [isLineSegments] on it and
    no [isAxesHelper]. *)
Definition camera : Object3D := mkObject "camera" [] true false false (Decoded "camera").
Definition sunlight : Object3D := mkObject "sun" [] false true false (Decoded "light").
Definition axes : Object3D := mkObject "" [] false false false (Decoded "AxesHelper").
Definition oldModel : Object3D := mkObject "old.obj" [] false false false (Decoded "obj").

Definition sampleScene : Scene := mkScene [camera; oldModel; sunlight; axes].

(** Runs of queued callbacks, counted. *)
Inductive stepsN : nat -> AggState -> AggState -> Prop :=
| stepsN_O st : stepsN 0 st st
| stepsN_S n st1 st2 st3 :
    step st1 st2 -> stepsN n st2 st3 -> stepsN (S n) st1 st3.

(** The key under which a file with a given path is registered. *)
Definition keyOf (pf : string * File) : string := slice1 pf.1.

(** The extension of each case of the [switch]. *)
Definition formatName (fmt : Format) : string :=
  match fmt with
  | FBX => "fbx" | GLB => "glb" | GLTF => "gltf" | OBJ => "obj"
  | PLY => "ply" | STL => "stl" | ZIP => "zip"
  end.

(** What a load adds to the log of transcoders. *)
Definition acquired : list Event := [Created DRACOLoader; Created KTX2Loader].
Definition released : list Event := [Disposed DRACOLoader; Disposed KTX2Loader].

(** The binding a registered file adds to the table. *)
Definition binding (pf : string * File) : string * File := (keyOf pf, pf.2).

(** ** The viewer component

    [initThree] adds three lights to the scene it creates; the camera is
    not a child of the scene. *)
Definition ambientLight : Object3D :=
  mkObject "" [] false true false (Decoded "AmbientLight").
Definition mainLight : Object3D :=
  mkObject "" [] false true false (Decoded "DirectionalLight main").
Definition fillLight : Object3D :=
  mkObject "" [] false true false (Decoded "DirectionalLight fill").

Definition initThree : Scene := mkScene [ambientLight; mainLight; fillLight].

(** [loadModel] called for one drop after another, each call ending before
    the next begins; the drops are given by what was aggregated. *)
Fixpoint session (dec : Decoders) (normalizeModel : Object3D -> Object3D)
    (drops : list Aggregate) (scene : Scene) (log : list Event)
    : option (Scene * list Event) :=
  match drops with
  | [] => Some (scene, log)
  | agg :: rest =>
      match loadModelFrom dec normalizeModel agg scene log with
      | Some run => session dec normalizeModel rest (scene_after run) (log_after run)
      | None => None
      end
  end.

(** The children of a scene that [clearScene] would remove. *)
Definition models (scene : Scene) : list Object3D :=
  List.filter (fun child => negb (isHelper child)) (children scene).

(** * Properties *)

(** ** Reading a plain object *)

Lemma readKey_stored map key file :
  map !! key = Some file -> readKey map key = Stored file.
Proof. intros H. unfold readKey. by rewrite H. Qed.

Lemma readKey_builtin map key :
  map !! key = None -> builtinName key = true -> readKey map key = Builtin.
Proof. intros H Hb. unfold readKey. by rewrite H, Hb. Qed.

Lemma readKey_absent map key :
  map !! key = None -> builtinName key = false -> map !! "__proto__" = None ->
  readKey map key = Absent.
Proof. intros H Hb Hp. unfold readKey. by rewrite H, Hb, Hp. Qed.

Lemma fetch_created b store :
  fetchBytes (createObjectURL b store).2 (createObjectURL b store).1 =
  Some (blobBytes b).
Proof.
  unfold createObjectURL, fetchBytes. simpl.
  by rewrite lookup_app_r, Nat.sub_diag.
Qed.


(** ** Extensions *)

Lemma split_undotted s : hasDot s = false -> split "." s = [s].
Proof.
  induction s as [|c r IH]; simpl; [done|].
  intros H. apply orb_false_iff in H as [Hc Hr].
  rewrite Hc, (IH Hr). done.
Qed.

Lemma split_dotted s :
  hasDot s = true -> exists h x t, split "." s = h :: x :: t.
Proof.
  induction s as [|c r IH]; simpl; [done|].
  destruct (Ascii.eqb c ".") eqn:Hc; simpl.
  - intros _. destruct (split "." r) as [|x t] eqn:Hs.
    + destruct r; simpl in Hs; [done|].
      destruct (Ascii.eqb _ _); [done|]. destruct (split "." r); done.
    + eauto.
  - intros Hr. destruct (IH Hr) as (h & x & t & ->). eauto.
Qed.

Lemma last_split s : last (split "." s) = Some (finalDotSegment s).
Proof.
  induction s as [|c r IH]; simpl; [done|].
  destruct (hasDot r) eqn:Hr.
  - destruct (split_dotted r Hr) as (h & x & t & Hs).
    rewrite Hs in IH |- *.
    destruct (Ascii.eqb c "."); simpl in *; done.
  - rewrite (split_undotted r Hr).
    destruct (Ascii.eqb c "."); done.
Qed.

Lemma extensionOf_segment n : extensionOf n = toLowerCase (finalDotSegment n).
Proof. unfold extensionOf. by rewrite last_split. Qed.

Lemma lower_ascii_dot c : Ascii.eqb (lower_ascii c) "." = Ascii.eqb c ".".
Proof.
  unfold lower_ascii.
  destruct (((65 <=? nat_of_ascii c) && (nat_of_ascii c <=? 90))%nat) eqn:E; [|done].
  apply andb_true_iff in E as [E1 E2].
  apply Nat.leb_le in E1, E2.
  assert (Hc : Ascii.eqb c "." = false).
  { apply Ascii.eqb_neq. intros ->. vm_compute in E1. lia. }
  rewrite Hc. apply Ascii.eqb_neq. intros Heq.
  apply (f_equal nat_of_ascii) in Heq.
  rewrite nat_ascii_embedding in Heq by lia.
  change (nat_of_ascii ".") with 46%nat in Heq. lia.
Qed.

Lemma hasDot_toLowerCase s : hasDot (toLowerCase s) = hasDot s.
Proof.
  induction s as [|c r IH]; simpl; [done|].
  by rewrite IH, lower_ascii_dot.
Qed.

Lemma finalDotSegment_toLowerCase s :
  finalDotSegment (toLowerCase s) = toLowerCase (finalDotSegment s).
Proof.
  induction s as [|c r IH]; simpl; [done|].
  rewrite hasDot_toLowerCase, lower_ascii_dot, IH.
  destruct (hasDot r); [done|]. destruct (Ascii.eqb c "."); done.
Qed.

Lemma extensionOf_sameUpToCase a b :
  sameUpToCase a b -> extensionOf a = extensionOf b.
Proof.
  unfold sameUpToCase. intros H.
  rewrite !extensionOf_segment, <- !finalDotSegment_toLowerCase.
  by rewrite H.
Qed.

Lemma includes_elem exts e : includes exts e = true <-> e ∈ exts.
Proof.
  unfold includes. rewrite existsb_exists. split.
  - intros (x & Hin & Heq). apply String.eqb_eq in Heq as ->.
    by apply list_elem_of_In.
  - intros Hin. exists e. split; [by apply list_elem_of_In|apply String.eqb_refl].
Qed.

Lemma isPrimary_supported f : isPrimary f = true <-> supportedName (name f).
Proof.
  unfold isPrimary, supportedName, topLevelExtensions.
  by rewrite includes_elem, extensionOf_segment.
Qed.

Lemma isPrimary_unsupported f : isPrimary f = false <-> ~ supportedName (name f).
Proof.
  rewrite <- isPrimary_supported. destruct (isPrimary f); naive_solver.
Qed.

(** ** Primary-file selection *)

Lemma primaryFile_Some files f :
  primaryFile files = Some f <->
  exists pre post, files = pre ++ f :: post /\ supportedName (name f) /\
                   Forall (fun g => ~ supportedName (name g)) pre.
Proof.
  unfold primaryFile. split.
  - induction files as [|x rest IH]; simpl; [done|].
    destruct (isPrimary x) eqn:Hx.
    + intros [= ->]. exists [], rest. split; [done|].
      split; [by apply isPrimary_supported|constructor].
    + intros Hf. destruct (IH Hf) as (pre & post & -> & Hs & Hpre).
      exists (x :: pre), post. split; [done|]. split; [done|].
      constructor; [by apply isPrimary_unsupported|done].
  - intros (pre & post & -> & Hs & Hpre).
    induction Hpre as [|x pre Hx _ IH]; simpl.
    + apply isPrimary_supported in Hs. by rewrite Hs.
    + apply isPrimary_unsupported in Hx. by rewrite Hx.
Qed.

Lemma primaryFile_None files :
  primaryFile files = None <-> Forall (fun g => ~ supportedName (name g)) files.
Proof.
  unfold primaryFile. induction files as [|x rest IH]; simpl.
  - split; [constructor|done].
  - destruct (isPrimary x) eqn:Hx.
    + split; [done|]. intros H. inversion H as [|? ? Hn _]; subst.
      apply isPrimary_supported in Hx. by destruct Hn.
    + rewrite IH. split.
      * intros H. constructor; [by apply isPrimary_unsupported|done].
      * intros H. by inversion H.
Qed.

(** C7. [loadModel] picks as primary the first file, in list order, whose
    extension is supported: a file [f] is picked exactly when the list
    splits around it with no supported name before it, and none is picked
    exactly when no name is supported.  The extension is the final
    dot-segment of the name in lower case, so names that differ in letter
    case only are treated alike. *)
Theorem primaryFile_first_supported (files : list File) :
  (forall f, primaryFile files = Some f <->
     exists pre post, files = pre ++ f :: post /\ supportedName (name f) /\
                      Forall (fun g => ~ supportedName (name g)) pre) /\
  (primaryFile files = None <->
     Forall (fun g => ~ supportedName (name g)) files) /\
  (forall f, isPrimary f = true <->
     toLowerCase (finalDotSegment (name f))
       ∈ ["stl"; "obj"; "ply"; "gltf"; "glb"; "fbx"; "zip"]) /\
  (forall f g, sameUpToCase (name f) (name g) -> isPrimary f = isPrimary g).
Proof.
  split; [|split; [|split]].
  - intros f. apply primaryFile_Some.
  - apply primaryFile_None.
  - intros f. apply isPrimary_supported.
  - intros f g H. unfold isPrimary.
    by rewrite (extensionOf_sameUpToCase _ _ H).
Qed.

(** ** createFilesMap *)







(** ** loadFile: unfolding, fuel and totality *)

Lemma formatOf_name e fmt : formatOf e = Some fmt <-> e = formatName fmt.
Proof.
  split.
  - unfold formatOf.
    repeat (destruct (String.eqb e _) eqn:E;
            [apply String.eqb_eq in E; intros [= <-]; exact E|clear E]).
    done.
  - intros ->. by destruct fmt.
Qed.

Lemma scanZip_find {A} (loadInner : File -> A) (noMatch : A) zip :
  scanZip loadInner noMatch zip =
  match List.find modelEntry zip with
  | Some (path, fileData) => loadInner (mkFile path fileData false)
  | None => noMatch
  end.
Proof.
  induction zip as [|[path fileData] rest IH]; simpl; [done|].
  unfold modelEntry at 1. simpl.
  destruct (includes zipExtensions (extensionOf path)); [done|apply IH].
Qed.

Lemma zipExtensions_formats e :
  includes zipExtensions e = true ->
  exists fmt, formatOf e = Some fmt /\ fmt <> ZIP.
Proof.
  rewrite includes_elem. unfold zipExtensions.
  rewrite !elem_of_cons, elem_of_nil.
  intros [->|[->|[->|[->|[->|[->|[]]]]]]]; eexists; (split; [reflexivity|done]).
Qed.

Section LoadFile.

Variable dec : Decoders.

Lemma loadFile_S fuel file manager log :
  loadFile dec (S fuel) file manager log =
  loadFileBody dec (loadFile dec fuel) file manager log.
Proof. reflexivity. Qed.

(** One level of [loadFile] for a file that is not an archive. *)
Lemma loadFile_flat fuel file manager log :
  formatOf (extensionOf (name file)) <> Some ZIP ->
  loadFile dec (S fuel) file manager log = loadFile dec 1 file manager log.
Proof.
  intros Hz. rewrite !loadFile_S. unfold loadFileBody.
  destruct (readFile _ file) as [contents|]; [|done].
  destruct (falsy contents); [done|].
  destruct (formatOf _) as [[]|]; done.
Qed.

Lemma loadFile_inner fuel path fileData manager log :
  modelEntry (path, fileData) = true ->
  loadFile dec (S fuel) (mkFile path fileData false) manager log =
  loadFile dec 1 (mkFile path fileData false) manager log.
Proof.
  unfold modelEntry. simpl. intros H. apply loadFile_flat. simpl.
  destruct (zipExtensions_formats _ H) as (fmt & -> & Hne). congruence.
Qed.

(** Two units of fuel are enough: the file picked inside an archive is
    never an archive. *)
Lemma loadFile_enough fuel file manager log :
  loadFile dec (S (S fuel)) file manager log = loadFile dec 2 file manager log.
Proof.
  rewrite (loadFile_S (S fuel)), (loadFile_S 1). unfold loadFileBody.
  destruct (readFile _ file) as [contents|]; [|done].
  destruct (falsy contents); [done|].
  destruct (formatOf _) as [[]|]; try done.
  destruct (unzipSync dec _) as [error|zip]; [done|].
  rewrite !scanZip_find.
  destruct (List.find modelEntry zip) as [[path fileData]|] eqn:Hf; [|done].
  apply List.find_some in Hf as [_ Hm].
  by apply loadFile_inner.
Qed.

Lemma loadFile_flat_total file manager log :
  formatOf (extensionOf (name file)) <> Some ZIP ->
  is_Some (loadFile dec 1 file manager log).
Proof.
  intros Hz. rewrite loadFile_S. unfold loadFileBody.
  destruct (readFile _ file) as [contents|]; [|done].
  destruct (falsy contents); [done|].
  destruct (formatOf _) as [[]|]; try done.
  - destruct (PLYLoader_parse dec _); done.
  - destruct (STLLoader_parse dec _); done.
Qed.

(** [loadFile] always settles: with two units of fuel it yields an
    outcome for every file. *)
Lemma loadFile_total file manager log :
  is_Some (loadFile dec 2 file manager log).
Proof.
  rewrite loadFile_S. unfold loadFileBody.
  destruct (readFile _ file) as [contents|]; [|done].
  destruct (falsy contents); [done|].
  destruct (formatOf _) as [[]|]; try done.
  - destruct (PLYLoader_parse dec _); done.
  - destruct (STLLoader_parse dec _); done.
  - destruct (unzipSync dec _) as [error|zip]; [done|].
    rewrite scanZip_find.
    destruct (List.find modelEntry zip) as [[path fileData]|] eqn:Hf; [|done].
    apply List.find_some in Hf as [_ Hm].
    apply loadFile_flat_total. simpl.
    unfold modelEntry in Hm. simpl in Hm.
    destruct (zipExtensions_formats _ Hm) as (fmt & -> & Hne). congruence.
Qed.

End LoadFile.

(** ** Archive expansion *)





Lemma loadFile_zip dec fuel file manager log zip :
  extensionOf (name file) = "zip" ->
  unreadable file = false ->
  unzipSync dec (bytes file) = inr zip ->
  loadFile dec (S fuel) file manager log =
  match List.find modelEntry zip with
  | Some (path, fileData) =>
      loadFile dec fuel (mkFile path fileData false) (ZipManager zip) log
  | None => Some (Failed NoModelInZip, log)
  end.
Proof.
  intros Hext Hread Hzip. rewrite loadFile_S. unfold loadFileBody.
  rewrite Hext. unfold readFile. rewrite Hread. simpl.
  rewrite Hzip. apply scanZip_find.
Qed.




(** ** Geometry-only formats *)

Lemma computeVertexNormals_index g : index (computeVertexNormals g) = index g.
Proof. unfold computeVertexNormals. by destruct (_ && _). Qed.

Lemma computeVertexNormals_color g :
  hasAttribute (computeVertexNormals g) "color" = hasAttribute g "color".
Proof.
  unfold computeVertexNormals. destruct (_ && _); [|done].
  unfold hasAttribute. simpl. apply bool_decide_ext.
  rewrite elem_of_app, list_elem_of_singleton.
  split; [intros [H|H]; [done|discriminate H]|by left].
Qed.

Lemma wrapPLY_shape g filename :
  shape (wrapPLY g filename) =
  match index g with
  | Some _ => Mesh (computeVertexNormals g)
                   (MeshStandardMaterial (hasAttribute g "color") DoubleSide)
  | None => Points (computeVertexNormals g)
                   (PointsMaterial (hasAttribute g "color"))
  end.
Proof.
  unfold wrapPLY. cbv zeta.
  rewrite computeVertexNormals_index, computeVertexNormals_color.
  by destruct (index g).
Qed.

Lemma loadFile_ply dec fuel file manager log g :
  extensionOf (name file) = "ply" ->
  unreadable file = false ->
  PLYLoader_parse dec (bytes file) = inr g ->
  loadFile dec (S fuel) file manager log =
  Some (Resolved (wrapPLY g (name file)), log).
Proof.
  intros Hext Hread Hparse. rewrite loadFile_S. unfold loadFileBody.
  rewrite Hext. unfold readFile. rewrite Hread. simpl. by rewrite Hparse.
Qed.

Lemma loadFile_stl dec fuel file manager log g :
  extensionOf (name file) = "stl" ->
  unreadable file = false ->
  STLLoader_parse dec (bytes file) = inr g ->
  loadFile dec (S fuel) file manager log =
  Some (Resolved (wrapSTL g (name file)), log).
Proof.
  intros Hext Hread Hparse. rewrite loadFile_S. unfold loadFileBody.
  rewrite Hext. unfold readFile. rewrite Hread. simpl. by rewrite Hparse.
Qed.

(** C4, as the specification states it, fails for STL: a parsed STL
    geometry without an index buffer and with a colour attribute is wrapped
    as a mesh, not as a point collection, and its material has vertex
    colours off. *)
Lemma stl_without_index_is_a_mesh :
  let file := mkFile "part.stl" "solid part" false in
  let g := mkGeometry None ["position"; "normal"; "color"] in
  STLLoader_parse accepting (bytes file) = inr g /\
  index g = None /\
  hasAttribute g "color" = true /\
  exists o, loadFile accepting 2 file (OuterManager ∅) [] = Some (Resolved o, []) /\
            isPoints o = false /\
            isMesh o = true /\
            objectVertexColors o = Some false.
Proof.
  repeat split. eexists. repeat split.
Qed.

(** C4, amended. A parsed PLY geometry is wrapped by its index buffer
    alone: as a mesh when it has one, as a point collection when it has
    none, and in both cases vertex colours are on exactly when the geometry
    has a colour attribute.  A parsed STL geometry is always wrapped as a
    mesh, whatever its index buffer. *)
Theorem geometry_wrapping
    (dec : Decoders) (fuel : nat) (file : File) (manager : LoadingManager)
    (log : list Event) (g : BufferGeometry) :
  unreadable file = false ->
  (extensionOf (name file) = "ply" ->
   PLYLoader_parse dec (bytes file) = inr g ->
   exists o,
     loadFile dec (S fuel) file manager log = Some (Resolved o, log) /\
     (isMesh o = true <-> index g <> None) /\
     (isPoints o = true <-> index g = None) /\
     objectVertexColors o = Some (hasAttribute g "color")) /\
  (extensionOf (name file) = "stl" ->
   STLLoader_parse dec (bytes file) = inr g ->
   exists o,
     loadFile dec (S fuel) file manager log = Some (Resolved o, log) /\
     isMesh o = true /\ isPoints o = false).
Proof.
  intros Hread. split; intros Hext Hparse.
  - exists (wrapPLY g (name file)).
    split; [by apply loadFile_ply|].
    unfold isMesh, isPoints, objectVertexColors. rewrite wrapPLY_shape.
    destruct (index g); simpl; naive_solver.
  - exists (wrapSTL g (name file)).
    split; [by apply loadFile_stl|]. done.
Qed.

Lemma geometry_wrapping_witness :
  exists o,
    loadFile accepting 1 (mkFile "scan.PLY" "ply" false) (OuterManager ∅) [] =
      Some (Resolved o, []) /\
    (isMesh o = true <-> Some [0; 1; 2] <> None) /\
    (isPoints o = true <-> Some [0; 1; 2] = None) /\
    objectVertexColors o = Some false.
Proof.
  exact (proj1 (geometry_wrapping accepting 0 (mkFile "scan.PLY" "ply" false)
                 (OuterManager ∅) [] (mkGeometry (Some [0; 1; 2]) ["position"])
                 eq_refl) eq_refl eq_refl).
Defined.

(** ** Transcoders of the GLTF loader *)

Lemma loadGLTF_resolved dec manager contents filename log result :
  GLTFLoader_parse dec manager contents = inr result ->
  exists scene,
    loadGLTF dec manager contents filename log =
    (Resolved scene,
     log ++ [Created DRACOLoader; Created KTX2Loader;
             Disposed DRACOLoader; Disposed KTX2Loader]).
Proof.
  intros H. unfold loadGLTF. rewrite H. eexists.
  by rewrite <- app_assoc.
Qed.

Lemma loadGLTF_failed dec manager contents filename log error :
  GLTFLoader_parse dec manager contents = inl error ->
  loadGLTF dec manager contents filename log =
  (Failed error, log ++ [Created DRACOLoader; Created KTX2Loader]).
Proof. intros H. unfold loadGLTF. by rewrite H. Qed.

(** Whenever the GLTF decoder fails, the load ends with both transcoders
    created and neither disposed of. *)
Lemma loadFile_glb_failed dec fuel file manager log error :
  extensionOf (name file) = "glb" ->
  unreadable file = false ->
  GLTFLoader_parse dec manager (ArrayBuffer (bytes file)) = inl error ->
  loadFile dec (S fuel) file manager log =
  Some (Failed error, log ++ [Created DRACOLoader; Created KTX2Loader]).
Proof.
  intros Hext Hread Hparse. rewrite loadFile_S. unfold loadFileBody.
  rewrite Hext. unfold readFile. rewrite Hread. simpl.
  by rewrite (loadGLTF_failed _ _ _ _ _ _ Hparse).
Qed.

(** C6 fails on the code: when the decoder rejects a GLB file, the two
    transcoders created for the load are still live when the load has
    failed; they are disposed of on success only. *)
Theorem glb_failure_keeps_transcoders :
  let broken := mkFile "broken.glb" "glTF" false in
  exists log,
    loadFile rejecting 2 broken (OuterManager ∅) [] =
      Some (Failed (DecoderError "gltf"), log) /\
    log = [Created DRACOLoader; Created KTX2Loader] /\
    live DRACOLoader log = 1 /\ live KTX2Loader log = 1 /\
  exists log' scene,
    loadFile accepting 2 broken (OuterManager ∅) [] = Some (Resolved scene, log') /\
    live DRACOLoader log' = 0 /\ live KTX2Loader log' = 0.
Proof.
  eexists. repeat split. eexists _, _. repeat split.
Qed.

(** ** URL modifiers *)

Lemma stripLeading_dot_slash r : stripLeading (String "." (String "/" r)) = r.
Proof. done. Qed.

Lemma stripLeading_slash r : stripLeading (String "/" r) = r.
Proof. done. Qed.

(** X20. What the modifier of the outer manager does with a reference,
    once its leading [./] or [/] is stripped.  If a file was stored under
    it, a new object URL is handed out behind which that file's bytes are
    read back.  If none was and it is [__proto__] or the name of a member
    of [Object.prototype], [URL.createObjectURL] throws.  If none was, it
    is no such name and no file was stored under [__proto__], the reference
    is handed back as it came and nothing is created. *)
Theorem outer_modifier_by_cases
    (filesMap : gmap string File) (url : string) (store : list Blob) :
  (forall file,
     filesMap !! stripLeading url = Some file ->
     outerURLModifier filesMap url store =
       (ObjectURL (length store), store ++ [OfFile file]) /\
     fetchBytes (store ++ [OfFile file]) (ObjectURL (length store)) =
       Some (bytes file)) /\
  (filesMap !! stripLeading url = None ->
   builtinName (stripLeading url) = true ->
   outerURLModifier filesMap url store = (Thrown, store)) /\
  (filesMap !! stripLeading url = None ->
   builtinName (stripLeading url) = false ->
   filesMap !! "__proto__" = None ->
   outerURLModifier filesMap url store = (Reference url, store)).
Proof.
  unfold outerURLModifier. cbv zeta. split_and!.
  - intros file H. rewrite (readKey_stored _ _ _ H).
    split; [done|]. apply (fetch_created (OfFile file)).
  - intros H Hb. by rewrite (readKey_builtin _ _ H Hb).
  - intros H Hb Hp. by rewrite (readKey_absent _ _ H Hb Hp).
Qed.

(** X21. What the modifier of the archive's manager does with a
    reference, taken as it is given.  If the archive has an entry of that
    path, a new object URL is handed out behind which the entry's bytes are
    read back.  If it has none and the reference is [__proto__] or the name
    of a member of [Object.prototype], a new object URL is handed out all
    the same, behind which the text [undefined] is read.  If it has none,
    the reference is no such name and no entry is named [__proto__], the
    reference is handed back as it came and nothing is created. *)
Theorem zip_modifier_by_cases
    (zip : list (string * string)) (url : string) (store : list Blob) :
  (forall data,
     zipLookup zip url = Some data ->
     zipURLModifier zip url store =
       (ObjectURL (length store),
        store ++ [OfBytes data "application/octet-stream"]) /\
     fetchBytes (store ++ [OfBytes data "application/octet-stream"])
                (ObjectURL (length store)) = Some data) /\
  (zipLookup zip url = None ->
   builtinName url = true ->
   zipURLModifier zip url store =
     (ObjectURL (length store),
      store ++ [OfBytes "undefined" "application/octet-stream"]) /\
   fetchBytes (store ++ [OfBytes "undefined" "application/octet-stream"])
              (ObjectURL (length store)) = Some "undefined") /\
  (zipLookup zip url = None ->
   builtinName url = false ->
   zipLookup zip "__proto__" = None ->
   zipURLModifier zip url store = (Reference url, store)).
Proof.
  unfold zipURLModifier, zipRead. split_and!.
  - intros data ->. split; [done|].
    apply (fetch_created (OfBytes data "application/octet-stream")).
  - intros -> ->. split; [done|].
    apply (fetch_created (OfBytes "undefined" "application/octet-stream")).
  - intros -> -> ->. done.
Qed.

(** C2 fails on the code for the archive's modifier: a reference with a
    leading [./] or [/] to an entry of the archive is handed back
    unresolved, although the entry is found once the prefix is stripped,
    and although the outer modifier resolves the same reference against
    the same table. *)
Theorem zip_modifier_keeps_prefix :
  let zip := [("model.gltf", "{}"); ("tex.png", "PNG")] in
  let texture := mkFile "tex.png" "PNG" false in
  zipLookup zip (stripLeading "./tex.png") = Some "PNG" /\
  zipURLModifier zip "./tex.png" [] = (Reference "./tex.png", []) /\
  zipURLModifier zip "/tex.png" [] = (Reference "/tex.png", []) /\
  zipURLModifier zip "tex.png" [] =
    (ObjectURL 0, [OfBytes "PNG" "application/octet-stream"]) /\
  outerURLModifier {["tex.png" := texture]} "./tex.png" [] =
    (ObjectURL 0, [OfFile texture]).
Proof.
  repeat split.
Qed.

(** ** The scene swap *)

Lemma children_foldl_remove scene removed :
  children (foldl remove scene removed) = spliceAll (children scene) removed.
Proof.
  revert scene. induction removed as [|x removed IH]; intros scene; simpl; [done|].
  by rewrite IH.
Qed.

Lemma spliceAll_keep x l removed :
  Forall (fun y => y <> x) removed ->
  spliceAll (x :: l) removed = x :: spliceAll l removed.
Proof.
  intros H. revert l. induction H as [|y removed Hy _ IH]; intros l; [done|].
  unfold spliceAll in *. simpl. destruct (decide (x = y)) as [->|_]; [done|].
  apply IH.
Qed.

Lemma spliceAll_nonhelpers l :
  spliceAll l (List.filter (fun child => negb (isHelper child)) l) =
  List.filter isHelper l.
Proof.
  induction l as [|x l IH]; [done|]. simpl.
  destruct (isHelper x) eqn:Hx; simpl.
  - rewrite spliceAll_keep; [by rewrite IH|].
    apply Forall_forall. intros y Hy ->.
    apply list_elem_of_In, List.filter_In in Hy as [_ Hy].
    by rewrite Hx in Hy.
  - unfold spliceAll in *. simpl. by rewrite decide_True.
Qed.

(** [clearScene] keeps the helpers, in their order, and nothing else. *)
Lemma clearScene_children scene :
  children (clearScene scene) = List.filter isHelper (children scene).
Proof.
  unfold clearScene. rewrite children_foldl_remove. apply spliceAll_nonhelpers.
Qed.

Lemma primaryFile_nonempty files p :
  primaryFile files = Some p -> (length files =? 0)%nat = false.
Proof. by destruct files. Qed.

(** Once the files are known, [loadModel] runs to its end. *)
Lemma loadModelFrom_total dec normalizeModel agg scene log :
  is_Some (loadModelFrom dec normalizeModel agg scene log).
Proof.
  destruct agg as [files filesMap]. unfold loadModelFrom.
  destruct (length files =? 0)%nat; [done|].
  destruct (primaryFile files) as [primary|]; [|done].
  destruct (loadFile_total dec primary (OuterManager filesMap) log) as [[[object|error] log'] ->];
    done.
Qed.

(** For a flat file list, [loadModel] is [loadModelFrom] on the list and
    the table [createFilesMap] builds from it. *)
Lemma loadModel_FileList dec normalizeModel files scene log ending :
  loadModel dec normalizeModel (FileList files) scene log ending <->
  exists run,
    ending = Returned run /\
    loadModelFrom dec normalizeModel (files, createFilesMap files) scene log = Some run.
Proof.
  split.
  - intros H. inversion H; subst. eauto.
  - intros (run & -> & Hrun). by apply loadModel_files.
Qed.

(** C8 fails on the code.  On a successful load the scene is left with
    the children that carry one of the flags [isCamera], [isLight],
    [isAxesHelper], in their order, followed by the normalized new object.
    The axes helper of three.js carries none of them, [isAxesHelper]
    included, so it is removed with the models: from a scene holding a
    camera, a model, a light and an axes helper, a successful load leaves
    the camera, the light and the new object. *)
Theorem axes_helper_is_removed :
  (forall dec normalizeModel files filesMap scene log log' primary object,
     primaryFile files = Some primary ->
     loadFile dec 2 primary (OuterManager filesMap) log = Some (Resolved object, log') ->
     loadModelFrom dec normalizeModel (files, filesMap) scene log =
       Some (mkRun (mkScene (List.filter isHelper (children scene)
                             ++ [normalizeModel object])) [] log')) /\
  isAxesHelper axes = false /\
  axes ∈ children sampleScene /\
  exists run,
    loadModelFrom accepting (fun o => o)
      ([mkFile "part.stl" "solid part" false],
       createFilesMap [mkFile "part.stl" "solid part" false])
      sampleScene [] = Some run /\
    alerts run = [] /\
    children (scene_after run) =
      [camera; sunlight;
       wrapSTL (mkGeometry None ["position"; "normal"; "color"]) "part.stl"] /\
    axes ∉ children (scene_after run).
Proof.
  split_and!.
  - intros dec normalizeModel files filesMap scene log log' primary object Hp Hload.
    unfold loadModelFrom.
    rewrite (primaryFile_nonempty _ _ Hp), Hp, Hload.
    unfold add. by rewrite clearScene_children.
  - done.
  - apply list_elem_of_In. simpl. auto.
  - eexists. split; [vm_compute; reflexivity|]. split; [reflexivity|].
    split; [reflexivity|].
    intros Hin. apply list_elem_of_In in Hin. simpl in Hin.
    destruct Hin as [H|[H|[H|[]]]]; discriminate H.
Qed.

(** ** Failed loads *)

(** C3, as the specification states it, fails for an empty drop: no
    dropped file has a supported extension, yet [loadModel] returns without
    any notification. *)
Lemma empty_drop_gives_no_notice :
  Forall (fun f => ~ supportedName (name f)) (@nil File) /\
  loadModelFrom rejecting (fun o => o) ([], createFilesMap []) sampleScene [] =
    Some (mkRun sampleScene [] []) /\
  loadModel rejecting (fun o => o) (FileList []) sampleScene []
    (Returned (mkRun sampleScene [] [])).
Proof.
  split; [constructor|]. split; [reflexivity|].
  by apply loadModel_files.
Qed.

(** C3, amended. When at least one file was dropped and none has a
    supported extension, [loadModel] notifies that no supported file was
    found and leaves the scene as it was; when the load of the primary file
    fails, [loadModel] notifies of the error and leaves the scene as it
    was. *)
Theorem failed_load_keeps_scene
    (dec : Decoders) (normalizeModel : Object3D -> Object3D)
    (files : list File) (filesMap : gmap string File) (scene : Scene)
    (log : list Event) :
  files <> [] ->
  (Forall (fun f => ~ supportedName (name f)) files ->
   loadModelFrom dec normalizeModel (files, filesMap) scene log =
     Some (mkRun scene [NoSupportedFile] log)) /\
  (forall primary error log',
     primaryFile files = Some primary ->
     loadFile dec 2 primary (OuterManager filesMap) log = Some (Failed error, log') ->
     loadModelFrom dec normalizeModel (files, filesMap) scene log =
       Some (mkRun scene [LoadFailure error] log')).
Proof.
  intros Hne. assert (Hlen : (length files =? 0)%nat = false) by by destruct files.
  unfold loadModelFrom. rewrite Hlen. split.
  - intros Hnone. apply primaryFile_None in Hnone. by rewrite Hnone.
  - intros primary error log' Hp Hload. by rewrite Hp, Hload.
Qed.

Lemma failed_load_keeps_scene_witness :
  loadModelFrom rejecting (fun o => o)
    ([mkFile "notes.txt" "text" false], ∅) sampleScene [] =
  Some (mkRun sampleScene [NoSupportedFile] []).
Proof.
  refine (proj1 (failed_load_keeps_scene rejecting (fun o => o)
                   [mkFile "notes.txt" "text" false] ∅ sampleScene [] _) _).
  - discriminate.
  - constructor; [|constructor]. unfold supportedName.
    change (toLowerCase (finalDotSegment (name (mkFile "notes.txt" "text" false))))
      with "txt".
    intros H. apply list_elem_of_In in H. simpl in H.
    repeat destruct H as [H|H]; try discriminate H. destruct H.
Defined.

(** ** The empty file list *)

(** C10. Called with an empty flat file list, [loadModel] returns, and in
    one way only: without any notification, with the scene and the
    transcoder log as they were. *)
Theorem empty_file_list_returns
    (dec : Decoders) (normalizeModel : Object3D -> Object3D)
    (scene : Scene) (log : list Event) (ending : Ending) :
  loadModel dec normalizeModel (FileList []) scene log ending <->
  ending = Returned (mkRun scene [] log).
Proof.
  split.
  - intros H. inversion H as [files scene' log' run Hrun| |]; subst.
    simpl in Hrun. by injection Hrun as <-.
  - intros ->. by apply loadModel_files.
Qed.

(** ** The completion barrier of getFilesFromItemList *)

Lemma onEntryHandled_eq st :
  onEntryHandled st =
  if (S (itemsCount st) =? itemsTotal st)%nat
  then resolve (countHandled st) else countHandled st.
Proof. reflexivity. Qed.

Lemma onEntryHandled_settled st v :
  promise st = Fulfilled v -> promise (onEntryHandled st) = Fulfilled v.
Proof.
  intros H. rewrite onEntryHandled_eq.
  case_match; simpl; by rewrite H.
Qed.

Lemma handleEntry_settled st e v :
  promise st = Fulfilled v -> promise (handleEntry st e) = Fulfilled v.
Proof.
  intros H. destruct e as [entries|fullPath [file|]|]; simpl; try done.
  by apply onEntryHandled_settled.
Qed.

Lemma foldl_handleEntry_settled entries st v :
  promise st = Fulfilled v -> promise (foldl handleEntry st entries) = Fulfilled v.
Proof.
  revert st. induction entries as [|e entries IH]; intros st H; simpl; [done|].
  by apply IH, handleEntry_settled.
Qed.

(** A settled promise keeps its value, whatever runs afterwards. *)
Lemma steps_settled st st' v :
  steps st st' -> promise st = Fulfilled v -> promise st' = Fulfilled v.
Proof.
  induction 1 as [|st1 st2 st3 Hstep _ IH]; [done|].
  intros H. apply IH. destruct Hstep as [pre t post st Hp].
  destruct t as [entries|fullPath file]; simpl.
  - by apply onEntryHandled_settled, foldl_handleEntry_settled.
  - by apply onEntryHandled_settled.
Qed.

Lemma steps_idle st st' : pending st = [] -> steps st st' -> st' = st.
Proof.
  intros Hp H. destruct H as [|st1 st2 st3 Hstep _]; [done|].
  destruct Hstep as [pre t post st Hq]. rewrite Hp in Hq.
  by destruct pre.
Qed.

(** C1 fails on the code.  When the first dropped item is an entry that is
    neither a file nor a directory, it is counted and completed at once,
    so the counters meet and the promise is resolved while the file
    dropped with it has not been read: the promise carries no file, it
    keeps that value whatever runs later, [loadModel] returns without
    loading anything, and [resolve] is called a second time when the file
    is registered.  When nothing of kind [file] is dropped, or when the
    read of a file entry fails, the promise is never resolved. *)
Theorem barrier_opens_early :
  let model := mkFile "a.obj" "v 0 0 0" false in
  let items := [fileItem OtherEntry; fileItem (FileEntry "/a.obj" (Some model))] in
  let st := getFilesFromItemList items in
  promise st = Fulfilled ([], ∅) /\
  pending st = [FileCallback "/a.obj" model] /\
  (itemsCount st, itemsTotal st) = (1, 2) /\
  (forall st', steps st st' -> promise st' = Fulfilled ([], ∅)) /\
  (forall ending,
     loadModel accepting (fun o => o) (ItemList items) sampleScene [] ending ->
     ending = Returned (mkRun sampleScene [] [])) /\
  (let st' := drain 1 st in
   files st' = [model] /\ resolveCalls st' = 2 /\ pending st' = []) /\
  (forall st', steps (getFilesFromItemList [mkItem "string" None]) st' ->
               promise st' = Pending) /\
  (forall st', steps (getFilesFromItemList [fileItem (FileEntry "/a.obj" None)]) st' ->
               promise st' = Pending).
Proof.
  intros model items st.
  assert (Hst : promise st = Fulfilled ([], ∅)) by reflexivity.
  split; [done|]. split; [done|]. split; [done|]. split; [|split; [|split; [|split]]].
  - intros st' Hsteps. by apply (steps_settled st).
  - intros ending H.
    inversion H as [|items' st' agg scene log run Hsteps Hp Hrun
                    |items' st' scene log Hsteps Hp]; subst.
    + apply (steps_settled st) with (v := ([], ∅)) in Hsteps; [|done].
      rewrite Hp in Hsteps. injection Hsteps as ->.
      simpl in Hrun. by injection Hrun as <-.
    + apply (steps_settled st) with (v := ([], ∅)) in Hsteps; [|done].
      by rewrite Hp in Hsteps.
  - done.
  - intros st' Hsteps. by rewrite (steps_idle initAgg st' eq_refl Hsteps).
  - intros st' Hsteps.
    by rewrite (steps_idle (getFilesFromItemList [fileItem (FileEntry "/a.obj" None)])
                           st' eq_refl Hsteps).
Qed.

(** ** The barrier on orderly drops

    What the counters do guarantee: when the first dropped entry is a file
    or a directory and every file can be read, the promise is resolved
    once, by the callback that runs last, with every file registered. *)

Lemma onEntryHandled_fields st :
  itemsCount (onEntryHandled st) = S (itemsCount st) /\
  itemsTotal (onEntryHandled st) = itemsTotal st /\
  files (onEntryHandled st) = files st /\
  filesMap (onEntryHandled st) = filesMap st /\
  pending (onEntryHandled st) = pending st.
Proof. rewrite onEntryHandled_eq. by case_match. Qed.

(** Below the total, [onEntryHandled] only counts. *)
Lemma onEntryHandled_quiet st :
  S (itemsCount st) <> itemsTotal st ->
  promise (onEntryHandled st) = promise st /\
  resolveCalls (onEntryHandled st) = resolveCalls st.
Proof.
  intros H. rewrite onEntryHandled_eq.
  apply Nat.eqb_neq in H. by rewrite H.
Qed.

(** At the total, it resolves. *)
Lemma onEntryHandled_resolves st :
  S (itemsCount st) = itemsTotal st ->
  promise st = Pending ->
  promise (onEntryHandled st) = Fulfilled (files st, filesMap st) /\
  resolveCalls (onEntryHandled st) = S (resolveCalls st).
Proof.
  intros H Hp. rewrite onEntryHandled_eq.
  apply Nat.eqb_eq in H. rewrite H. simpl. by rewrite Hp.
Qed.

Lemma handleEntry_pending st e :
  pending (handleEntry st e) = pending st ++ queued e.
Proof.
  destruct e as [entries|fullPath [file|]|]; simpl; try by rewrite app_nil_r.
  1,2: done.
  destruct (onEntryHandled_fields (countEntry st)) as (_ & _ & _ & _ & ->).
  simpl. by rewrite app_nil_r.
Qed.

Lemma handleEntry_files st e :
  files (handleEntry st e) = files st /\ filesMap (handleEntry st e) = filesMap st.
Proof.
  destruct e as [entries|fullPath [file|]|]; simpl; try done.
  by destruct (onEntryHandled_fields (countEntry st)) as (_ & _ & -> & -> & _).
Qed.

(** Handling a readable entry keeps the distance between the total and
    what is completed or queued. *)
Lemma handleEntry_balance st e :
  readable e = true ->
  itemsTotal (handleEntry st e) + itemsCount st + length (pending st) =
  itemsTotal st + itemsCount (handleEntry st e) + length (pending (handleEntry st e)).
Proof.
  intros Hr. destruct e as [entries|fullPath [file|]|]; simpl; try done.
  - rewrite length_app. simpl. lia.
  - rewrite length_app. simpl. lia.
  - destruct (onEntryHandled_fields (countEntry st)) as (-> & -> & _ & _ & ->).
    simpl. lia.
Qed.

(** While something counted is not completed, handling an entry does not
    resolve, and leaves something not completed. *)
Lemma handleEntry_quiet st e :
  itemsCount st < itemsTotal st ->
  promise (handleEntry st e) = promise st /\
  resolveCalls (handleEntry st e) = resolveCalls st /\
  itemsCount (handleEntry st e) < itemsTotal (handleEntry st e).
Proof.
  intros Hlt. destruct e as [entries|fullPath [file|]|]; simpl; try (split_and!; [done|done|lia]).
  destruct (onEntryHandled_quiet (countEntry st)) as [-> ->]; [simpl; lia|].
  destruct (onEntryHandled_fields (countEntry st)) as (-> & -> & _).
  simpl. split_and!; [done|done|lia].
Qed.

Lemma foldl_handleEntry_pending entries st :
  pending (foldl handleEntry st entries) = pending st ++ flat_map queued entries.
Proof.
  revert st. induction entries as [|e entries IH]; intros st; simpl.
  - by rewrite app_nil_r.
  - by rewrite IH, handleEntry_pending, <- app_assoc.
Qed.

Lemma foldl_handleEntry_files entries st :
  files (foldl handleEntry st entries) = files st /\
  filesMap (foldl handleEntry st entries) = filesMap st.
Proof.
  revert st. induction entries as [|e entries IH]; intros st; simpl; [done|].
  destruct (IH (handleEntry st e)) as [-> ->]. apply handleEntry_files.
Qed.

Lemma foldl_handleEntry_balance entries st :
  forallb readable entries = true ->
  itemsTotal (foldl handleEntry st entries) + itemsCount st + length (pending st) =
  itemsTotal st + itemsCount (foldl handleEntry st entries)
  + length (pending (foldl handleEntry st entries)).
Proof.
  revert st. induction entries as [|e entries IH]; intros st Hr; simpl; [done|].
  simpl in Hr. apply andb_true_iff in Hr as [He Hr].
  pose proof (IH (handleEntry st e) Hr). pose proof (handleEntry_balance st e He). lia.
Qed.

Lemma foldl_handleEntry_quiet entries st :
  itemsCount st < itemsTotal st ->
  promise (foldl handleEntry st entries) = promise st /\
  resolveCalls (foldl handleEntry st entries) = resolveCalls st /\
  itemsCount (foldl handleEntry st entries) < itemsTotal (foldl handleEntry st entries).
Proof.
  revert st. induction entries as [|e entries IH]; intros st Hlt; simpl; [done|].
  destruct (handleEntry_quiet st e Hlt) as (Hp & Hc & Hlt').
  destruct (IH _ Hlt') as (-> & -> & ?). by rewrite Hp, Hc.
Qed.

Lemma queued_readable e :
  readable e = true -> forallb callbackReadable (queued e) = true.
Proof.
  destruct e as [entries|fullPath [file|]|]; simpl; try done.
  intros ->. done.
Qed.

Lemma queued_files e : flat_map callbackFiles (queued e) = entryFiles e.
Proof.
  destruct e as [entries|fullPath [file|]|]; simpl; try done.
  by rewrite app_nil_r.
Qed.

Lemma queued_weight e : list_sum (List.map callbackWeight (queued e)) <= weight e.
Proof. destruct e as [entries|fullPath [file|]|]; simpl; lia. Qed.

Lemma flat_queued_readable entries :
  forallb readable entries = true ->
  forallb callbackReadable (flat_map queued entries) = true.
Proof.
  induction entries as [|e entries IH]; simpl; [done|].
  intros H. apply andb_true_iff in H as [He Hr].
  rewrite forallb_app, (queued_readable e He), (IH Hr). done.
Qed.

Lemma flat_queued_files entries :
  flat_map callbackFiles (flat_map queued entries) = flat_map entryFiles entries.
Proof.
  induction entries as [|e entries IH]; simpl; [done|].
  by rewrite List.flat_map_app, queued_files, IH.
Qed.

Lemma flat_queued_weight entries :
  list_sum (List.map callbackWeight (flat_map queued entries)) <=
  list_sum (List.map weight entries).
Proof.
  induction entries as [|e entries IH]; simpl; [done|].
  rewrite List.map_app, list_sum_app. pose proof (queued_weight e). lia.
Qed.

Lemma tableOf_snoc registered fullPath file :
  tableOf (registered ++ [(fullPath, file)]) =
  <[slice1 fullPath := file]> (tableOf registered).
Proof. unfold tableOf. by rewrite foldl_app. Qed.

(** Running any queued callback keeps the state orderly. *)
Lemma step_orderly all st st' : Orderly all st -> step st st' -> Orderly all st'.
Proof.
  intros [Hbal Hread Hwait _ (registered & Hfiles & Hmap & Hperm)] Hstep.
  destruct Hstep as [pre t post st Hp].
  destruct Hwait as [Hprom Hcalls]; [rewrite Hp; by destruct pre|].
  rewrite Hp in Hbal, Hread, Hperm. rewrite length_app in Hbal. simpl in Hbal.
  rewrite forallb_app in Hread. simpl in Hread.
  apply andb_true_iff in Hread as [Hpre Hread].
  apply andb_true_iff in Hread as [Ht Hpost].
  rewrite List.flat_map_app in Hperm. simpl in Hperm.
  set (st1 := setPending (pre ++ post) st).
  destruct t as [entries|fullPath file]; simpl.
  - (* a directory listing *)
    assert (Hlt : itemsCount st1 < itemsTotal st1) by (simpl; lia).
    destruct (foldl_handleEntry_quiet entries st1 Hlt) as (Hp2 & Hc2 & _).
    pose proof (foldl_handleEntry_balance entries st1 Ht) as Hb2.
    pose proof (foldl_handleEntry_pending entries st1) as Hq2.
    destruct (foldl_handleEntry_files entries st1) as [Hf2 Hm2].
    set (st2 := foldl handleEntry st1 entries) in *.
    simpl in Hp2, Hc2, Hb2, Hq2, Hf2, Hm2.
    destruct (onEntryHandled_fields st2) as (Hc3 & Ht3 & Hf3 & Hm3 & Hq3).
    assert (Hb3 : itemsTotal st2 = S (itemsCount st2) + length (pending st2)).
    { rewrite Hq2, !length_app in *. lia. }
    constructor.
    + rewrite Hc3, Ht3, Hq3. exact Hb3.
    + rewrite Hq3, Hq2, !forallb_app, Hpre, Hpost.
      by rewrite (flat_queued_readable entries Ht).
    + rewrite Hq3. intros Hne.
      destruct (onEntryHandled_quiet st2) as [-> ->].
      * destruct (pending st2); [done|simpl in Hb3; lia].
      * by rewrite Hp2, Hc2.
    + rewrite Hq3. intros He.
      destruct (onEntryHandled_resolves st2) as [-> ->].
      * rewrite He in Hb3. simpl in Hb3. lia.
      * by rewrite Hp2.
      * by rewrite Hf3, Hm3, Hc2, Hcalls.
    + exists registered. rewrite Hf3, Hm3, Hf2, Hm2, Hq3, Hq2.
      split; [done|]. split; [done|].
      rewrite !List.flat_map_app, flat_queued_files.
      etransitivity; [|exact Hperm].
      apply Permutation_app_head. rewrite <- app_assoc.
      apply Permutation_app_head, Permutation_app_comm.
  - (* a file *)
    set (st2 := register fullPath file st1).
    destruct (onEntryHandled_fields st2) as (Hc3 & Ht3 & Hf3 & Hm3 & Hq3).
    simpl in Hc3, Ht3, Hf3, Hm3, Hq3.
    constructor.
    + rewrite Hc3, Ht3, Hq3, length_app. lia.
    + by rewrite Hq3, forallb_app, Hpre, Hpost.
    + rewrite Hq3. intros Hne.
      destruct (onEntryHandled_quiet st2) as [-> ->]; [|done].
      simpl. assert (length (pre ++ post) <> 0) by by destruct (pre ++ post).
      rewrite length_app in *. lia.
    + rewrite Hq3. intros He.
      destruct (onEntryHandled_resolves st2) as [-> ->].
      * simpl. apply (f_equal length) in He. rewrite length_app in He.
        simpl in He. lia.
      * done.
      * by rewrite Hf3, Hm3; simpl; rewrite Hcalls.
    + exists (registered ++ [(fullPath, file)]).
      rewrite Hf3, Hm3, Hq3, Hfiles, Hmap, fmap_app, tableOf_snoc.
      split; [done|]. split; [done|].
      rewrite List.flat_map_app. etransitivity; [|exact Hperm].
      rewrite <- app_assoc. apply Permutation_app_head.
      simpl. apply Permutation_middle.
Qed.

Lemma steps_orderly all st st' : Orderly all st -> steps st st' -> Orderly all st'.
Proof.
  intros Ho Hs. induction Hs as [|st1 st2 st3 Hstep _ IH]; [done|].
  by apply IH, (step_orderly all st1).
Qed.

Lemma executor_entries items entries st :
  droppedEntries items = Some entries ->
  executor items st = foldl handleEntry st entries.
Proof.
  revert entries st. induction items as [|item items IH]; intros entries st; simpl.
  - by intros [= <-].
  - destruct (String.eqb (kind item) "file"); [|by apply IH].
    destruct (webkitGetAsEntry item) as [e|]; [|done].
    destruct (droppedEntries items) as [es|]; [|done].
    intros [= <-]. simpl. by apply IH.
Qed.

(** An orderly drop leaves the executor in an orderly state, with at least
    one callback queued. *)
Lemma getFilesFromItemList_orderly items :
  orderlyDrop items = true ->
  Orderly (dropFiles items) (getFilesFromItemList items) /\
  pending (getFilesFromItemList items) <> [].
Proof.
  unfold orderlyDrop, dropFiles, getFilesFromItemList.
  destruct (droppedEntries items) as [[|e entries]|] eqn:Hd; try done.
  intros Hr. rewrite (executor_entries _ _ _ Hd). simpl.
  assert (He : readable e = true /\ forallb readable entries = true /\ queued e <> []).
  { destruct e as [ds|fullPath [file|]|]; try done;
      simpl in Hr; apply andb_true_iff in Hr as [? ?]; done. }
  destruct He as (He & Hes & Hq). clear Hr.
  set (st1 := handleEntry initAgg e).
  assert (H1 : itemsCount st1 = 0 /\ itemsTotal st1 = 1 /\ promise st1 = Pending /\
               resolveCalls st1 = 0 /\ pending st1 = queued e /\
               files st1 = [] /\ filesMap st1 = ∅).
  { subst st1. destruct e as [ds|fullPath [file|]|]; done. }
  destruct H1 as (Hc1 & Ht1 & Hp1 & Hr1 & Hq1 & Hf1 & Hm1).
  destruct (foldl_handleEntry_quiet entries st1) as (Hp2 & Hc2 & _); [lia|].
  pose proof (foldl_handleEntry_balance entries st1 Hes) as Hb2.
  pose proof (foldl_handleEntry_pending entries st1) as Hq2.
  destruct (foldl_handleEntry_files entries st1) as [Hf2 Hm2].
  set (st2 := foldl handleEntry st1 entries) in *.
  assert (Hne : pending st2 <> []).
  { rewrite Hq2, Hq1. by destruct (queued e). }
  split; [|done]. constructor.
  - rewrite Hq2, Hq1, !length_app in *.
    assert (length (queued e) = 1) by by destruct e as [ds|fullPath [file|]|].
    lia.
  - rewrite Hq2, Hq1, forallb_app, (queued_readable e He).
    by rewrite (flat_queued_readable entries Hes).
  - intros _. by rewrite Hp2, Hc2.
  - intros Hnil. by destruct Hne.
  - exists []. rewrite Hf2, Hm2, Hq2, Hq1.
    split; [done|]. split; [done|]. simpl.
    by rewrite List.flat_map_app, queued_files, flat_queued_files.
Qed.

Lemma workLeft_step st st' : step st st' -> workLeft st' < workLeft st.
Proof.
  intros [pre t post st0 Hp]. unfold workLeft. rewrite Hp.
  rewrite List.map_app, list_sum_app. simpl.
  destruct t as [entries|fullPath file]; simpl.
  - destruct (onEntryHandled_fields
                (foldl handleEntry (setPending (pre ++ post) st0) entries))
      as (_ & _ & _ & _ & ->).
    rewrite foldl_handleEntry_pending. simpl.
    rewrite !List.map_app, !list_sum_app.
    pose proof (flat_queued_weight entries). lia.
  - destruct (onEntryHandled_fields
                (register fullPath file (setPending (pre ++ post) st0)))
      as (_ & _ & _ & _ & ->).
    simpl. rewrite List.map_app, list_sum_app. lia.
Qed.

(** Running the callbacks in queue order is one way to run them. *)
Lemma drain_steps fuel st : steps st (drain fuel st).
Proof.
  revert st. induction fuel as [|fuel IH]; intros st; simpl.
  - destruct (pending st); constructor.
  - destruct (pending st) as [|t rest] eqn:Hp; [constructor|].
    eapply steps_step; [|apply IH]. by apply (step_run []).
Qed.




(** X2. On an orderly drop [loadModel] returns, and what it works on is every
    file of the drop, in the order the callbacks registered them, with the
    table of their paths. *)
Theorem loadModel_orderly
    (dec : Decoders) (normalizeModel : Object3D -> Object3D)
    (items : list Item) (scene : Scene) (log : list Event) (ending : Ending) :
  orderlyDrop items = true ->
  loadModel dec normalizeModel (ItemList items) scene log ending ->
  exists registered run,
    registered ≡ₚ dropFiles items /\
    ending = Returned run /\
    loadModelFrom dec normalizeModel (registered.*2, tableOf registered) scene log =
      Some run.
Proof.
  intros Hdrop H.
  destruct (getFilesFromItemList_orderly items Hdrop) as [Hinit _].
  inversion H as [|items' st agg scene' log' run Hsteps Hp Hrun
                  |items' st scene' log' Hsteps Hp]; subst.
  - destruct (steps_orderly _ _ _ Hinit Hsteps)
      as [_ _ Hwait Hres (registered & Hfiles & Hmap & Hperm)].
    destruct (pending st) as [|t rest] eqn:Hq.
    + destruct (Hres eq_refl) as [Hprom _]. rewrite Hprom in Hp.
      injection Hp as <-. exists registered, run.
      simpl in Hperm. rewrite app_nil_r in Hperm.
      by rewrite <- Hfiles, <- Hmap.
    + destruct Hwait as [Hprom _]; [done|]. by rewrite Hprom in Hp.
  - destruct (steps_orderly _ _ _ Hinit Hsteps) as [_ _ Hwait Hres _].
    destruct (pending st) as [|t rest] eqn:Hq.
    + destruct (Hres eq_refl) as [Hprom _]. by rewrite Hprom in Hp.
    + destruct Hwait as [Hprom _]; [done|]. by rewrite Hprom in Hp.
Qed.

Lemma loadModel_orderly_witness :
  let model := mkFile "a.obj" "v 0 0 0" false in
  let items := [fileItem (FileEntry "/a.obj" (Some model))] in
  let run := mkRun (mkScene [camera; sunlight;
                             setName (sampleGroup "obj") "a.obj"]) [] [] in
  exists registered run',
    registered ≡ₚ dropFiles items /\
    Returned run = Returned run' /\
    loadModelFrom accepting (fun o => o) (registered.*2, tableOf registered)
      sampleScene [] = Some run'.
Proof.
  intros model items run.
  set (st := drain 1 (getFilesFromItemList items)).
  assert (Hprom : promise st = Fulfilled (files st, filesMap st))
    by (vm_compute; reflexivity).
  assert (Hrun : loadModelFrom accepting (fun o => o) (files st, filesMap st)
                   sampleScene [] = Some run)
    by (vm_compute; reflexivity).
  exact (loadModel_orderly accepting (fun o => o) items sampleScene []
           (Returned run) eq_refl
           (loadModel_items accepting (fun o => o) items st _ sampleScene [] run
              (drain_steps 1 _) Hprom Hrun)).
Defined.

(** ** The counters on every drop *)

Lemma handleEntry_slack st e k :
  itemsCount st + length (pending st) + k <= itemsTotal st ->
  itemsCount (handleEntry st e) + length (pending (handleEntry st e)) + k
    <= itemsTotal (handleEntry st e) /\
  itemsCount st <= itemsCount (handleEntry st e) /\
  itemsTotal (handleEntry st e) = S (itemsTotal st) /\
  resolveCalls st <= resolveCalls (handleEntry st e).
Proof.
  intros H. destruct e as [entries|fullPath [file|]|]; simpl;
    rewrite ?length_app; simpl; try lia.
  rewrite onEntryHandled_eq. case_match; simpl; lia.
Qed.

Lemma foldl_handleEntry_slack entries st k :
  itemsCount st + length (pending st) + k <= itemsTotal st ->
  itemsCount (foldl handleEntry st entries)
    + length (pending (foldl handleEntry st entries)) + k
    <= itemsTotal (foldl handleEntry st entries) /\
  itemsCount st <= itemsCount (foldl handleEntry st entries) /\
  itemsTotal (foldl handleEntry st entries) = itemsTotal st + length entries /\
  resolveCalls st <= resolveCalls (foldl handleEntry st entries).
Proof.
  revert st. induction entries as [|e entries IH]; intros st H; simpl.
  - lia.
  - destruct (handleEntry_slack st e k H) as (H1 & H2 & H3 & H4).
    destruct (IH _ H1) as (H5 & H6 & H7 & H8). lia.
Qed.

Lemma onEntryHandled_calls st :
  resolveCalls st <= resolveCalls (onEntryHandled st).
Proof. rewrite onEntryHandled_eq. case_match; simpl; lia. Qed.

(** What one callback does to the counters and to the list of files. *)
Lemma step_counters st st' :
  step st st' ->
  itemsCount st + length (pending st) <= itemsTotal st ->
  itemsCount st' + length (pending st') <= itemsTotal st' /\
  itemsCount st < itemsCount st' /\
  itemsTotal st <= itemsTotal st' /\
  resolveCalls st <= resolveCalls st' /\
  exists more, files st' = files st ++ more /\ length more <= 1.
Proof.
  intros [pre t post st0 Hp] H. rewrite Hp, length_app in H. simpl in H.
  set (st1 := setPending (pre ++ post) st0).
  assert (H1 : itemsCount st1 + length (pending st1) + 1 <= itemsTotal st1)
    by (simpl; rewrite length_app; lia).
  destruct t as [entries|fullPath file]; simpl; fold st1.
  - destruct (foldl_handleEntry_slack entries st1 1 H1) as (H2 & H3 & H4 & H5).
    destruct (foldl_handleEntry_files entries st1) as [Hf _].
    pose proof (onEntryHandled_calls (foldl handleEntry st1 entries)) as H6.
    destruct (onEntryHandled_fields (foldl handleEntry st1 entries))
      as (-> & -> & -> & _ & ->).
    simpl in H3, H4, H5, Hf. rewrite Hf.
    split_and!; try lia. exists []. split; [by rewrite app_nil_r|simpl; lia].
  - pose proof (onEntryHandled_calls (register fullPath file st1)) as H6.
    destruct (onEntryHandled_fields (register fullPath file st1))
      as (-> & -> & -> & _ & ->).
    simpl in *. rewrite length_app.
    split_and!; try lia. exists [file]. split; [done|simpl; lia].
Qed.

Lemma executor_counters items st :
  itemsCount st + length (pending st) <= itemsTotal st ->
  itemsCount (executor items st) + length (pending (executor items st))
    <= itemsTotal (executor items st) /\
  files (executor items st) = files st.
Proof.
  revert st. induction items as [|item items IH]; intros st H; simpl; [done|].
  destruct (String.eqb (kind item) "file"); [|by apply IH].
  destruct (webkitGetAsEntry item) as [e|]; simpl; [|split; [lia|done]].
  destruct (handleEntry_slack st e 0) as (H1 & _); [lia|].
  destruct (IH (handleEntry st e)) as [H2 ->]; [lia|].
  split; [done|]. apply handleEntry_files.
Qed.

Lemma reachable_counters items st :
  steps (getFilesFromItemList items) st ->
  itemsCount st + length (pending st) <= itemsTotal st /\
  length (files st) <= itemsCount st.
Proof.
  intros Hsteps.
  assert (Hinit : itemsCount (getFilesFromItemList items)
                  + length (pending (getFilesFromItemList items))
                  <= itemsTotal (getFilesFromItemList items) /\
                  length (files (getFilesFromItemList items))
                  <= itemsCount (getFilesFromItemList items)).
  { destruct (executor_counters items initAgg) as [H1 H2]; [simpl; lia|].
    unfold getFilesFromItemList. rewrite H2. simpl. split; [done|lia]. }
  induction Hsteps as [|st1 st2 st3 Hstep _ IH]; [done|].
  apply IH. destruct Hinit as [Ha Hb].
  destruct (step_counters _ _ Hstep Ha) as (H1 & H2 & _ & _ & more & H3 & H4).
  split; [done|]. rewrite H3, length_app. lia.
Qed.



(** X4. Callbacks only add: each one completes at least one more entry,
    never lowers the total or the number of calls of [resolve], and appends
    at most one file to the list, so what the promise was fulfilled with
    stays a prefix of the list. *)
Theorem aggregation_only_grows (items : list Item) (st st' : AggState) :
  steps (getFilesFromItemList items) st ->
  steps st st' ->
  itemsCount st <= itemsCount st' /\
  itemsTotal st <= itemsTotal st' /\
  resolveCalls st <= resolveCalls st' /\
  files st `prefix_of` files st' /\
  (forall agg, promise st = Fulfilled agg -> promise st' = Fulfilled agg).
Proof.
  intros Hreach Hsteps.
  pose proof (proj1 (reachable_counters items st Hreach)) as Hinv.
  clear Hreach. induction Hsteps as [st|st1 st2 st3 Hstep Hrest IH].
  - split_and!; done.
  - destruct (step_counters _ _ Hstep Hinv) as (H1 & H2 & H3 & H4 & more & H5 & _).
    destruct (IH H1) as (H6 & H7 & H8 & H9 & H10).
    split_and!; try lia.
    + transitivity (files st2); [|done]. rewrite H5. by apply prefix_app_r.
    + intros agg Hagg. apply H10.
      apply (steps_settled st1 st2); [|done].
      eapply steps_step; [exact Hstep|apply steps_refl].
Qed.

Lemma aggregation_only_grows_witness :
  let model := mkFile "a.obj" "v 0 0 0" false in
  let items := [fileItem OtherEntry; fileItem (FileEntry "/a.obj" (Some model))] in
  let st := getFilesFromItemList items in
  let st' := drain 1 st in
  itemsCount st <= itemsCount st' /\
  itemsTotal st <= itemsTotal st' /\
  resolveCalls st <= resolveCalls st' /\
  files st `prefix_of` files st' /\
  (forall agg, promise st = Fulfilled agg -> promise st' = Fulfilled agg).
Proof.
  intros model items st st'.
  exact (aggregation_only_grows items st st' (steps_refl _) (drain_steps 1 _)).
Defined.

(** ** How long the callbacks can run *)

Lemma stepsN_work n st st' : stepsN n st st' -> n + workLeft st' <= workLeft st.
Proof.
  induction 1 as [|n st1 st2 st3 Hstep _ IH]; [simpl; lia|].
  pose proof (workLeft_step _ _ Hstep). lia.
Qed.

Lemma getFilesFromItemList_pending items entries :
  droppedEntries items = Some entries ->
  pending (getFilesFromItemList items) = flat_map queued entries.
Proof.
  intros H. unfold getFilesFromItemList.
  by rewrite (executor_entries _ _ _ H), foldl_handleEntry_pending.
Qed.

(** X5. The callbacks of a drop cannot run for ever: however the browser orders
    them, fewer of them run than the drop has entries, directories and
    what they list included. *)
Theorem callbacks_are_bounded
    (items : list Item) (entries : list Entry) (n : nat) (st : AggState) :
  droppedEntries items = Some entries ->
  stepsN n (getFilesFromItemList items) st ->
  n + workLeft st <= list_sum (List.map weight entries).
Proof.
  intros Hd Hn. pose proof (stepsN_work _ _ _ Hn) as H.
  unfold workLeft at 2 in H. rewrite (getFilesFromItemList_pending _ _ Hd) in H.
  pose proof (flat_queued_weight entries). lia.
Qed.

Lemma callbacks_are_bounded_witness :
  let model := mkFile "a.obj" "v 0 0 0" false in
  let entries := [Directory [OtherEntry; FileEntry "/d/a.obj" (Some model)]] in
  let items := [mkItem "string" None; fileItem (Directory [OtherEntry;
                                     FileEntry "/d/a.obj" (Some model)])] in
  let st := runCallback (ReadEntries [OtherEntry; FileEntry "/d/a.obj" (Some model)])
              (setPending ([] ++ []) (getFilesFromItemList items)) in
  1 + workLeft st <= list_sum (List.map weight entries).
Proof.
  intros model entries items st.
  exact (callbacks_are_bounded items entries 1 st eq_refl
           (stepsN_S 0 _ _ _ (step_run [] _ [] (getFilesFromItemList items) eq_refl)
                     (stepsN_O _))).
Defined.

(** ** Drops on which the promise goes wrong *)

Lemma executor_skip skipped rest st :
  Forall (fun item => kind item <> "file") skipped ->
  executor (skipped ++ rest) st = executor rest st.
Proof.
  induction 1 as [|item skipped Hk _ IH]; simpl; [done|].
  apply String.eqb_neq in Hk. by rewrite Hk.
Qed.

Lemma executor_settled items st v :
  promise st = Fulfilled v -> promise (executor items st) = Fulfilled v.
Proof.
  revert st. induction items as [|item items IH]; intros st H; simpl; [done|].
  destruct (String.eqb (kind item) "file"); [|by apply IH].
  destruct (webkitGetAsEntry item) as [e|]; simpl.
  - by apply IH, handleEntry_settled.
  - by rewrite H.
Qed.

(** X6. Whenever the first item of kind [file] yields an entry that is neither
    a file nor a directory, the promise is fulfilled with no file at all,
    whatever else is dropped and whatever runs later, and [loadModel] can
    only return without a notification and without touching the scene. *)
Theorem other_entry_first_loads_nothing
    (dec : Decoders) (normalizeModel : Object3D -> Object3D)
    (skipped rest : list Item) (scene : Scene) (log : list Event) :
  Forall (fun item => kind item <> "file") skipped ->
  (forall st,
     steps (getFilesFromItemList (skipped ++ fileItem OtherEntry :: rest)) st ->
     promise st = Fulfilled ([], ∅)) /\
  (forall ending,
     loadModel dec normalizeModel
       (ItemList (skipped ++ fileItem OtherEntry :: rest)) scene log ending ->
     ending = Returned (mkRun scene [] log)).
Proof.
  intros Hskip.
  assert (Hstart : promise (getFilesFromItemList
                              (skipped ++ fileItem OtherEntry :: rest))
                   = Fulfilled ([], ∅)).
  { unfold getFilesFromItemList. rewrite (executor_skip _ _ _ Hskip). simpl.
    by apply executor_settled. }
  assert (Hall : forall st,
            steps (getFilesFromItemList (skipped ++ fileItem OtherEntry :: rest)) st ->
            promise st = Fulfilled ([], ∅)).
  { intros st Hsteps. by apply (steps_settled _ _ _ Hsteps). }
  split; [exact Hall|].
  intros ending H.
  inversion H as [|items' st agg scene' log' run Hsteps Hp Hrun
                  |items' st scene' log' Hsteps Hp]; subst.
  - rewrite (Hall _ Hsteps) in Hp. injection Hp as <-.
    simpl in Hrun. by injection Hrun as <-.
  - by rewrite (Hall _ Hsteps) in Hp.
Qed.

Lemma other_entry_first_loads_nothing_witness :
  promise (getFilesFromItemList
             ([mkItem "string" None] ++ fileItem OtherEntry ::
              [fileItem (FileEntry "/a.obj" (Some (mkFile "a.obj" "v" false)))]))
  = Fulfilled ([], ∅).
Proof.
  refine (proj1 (other_entry_first_loads_nothing accepting (fun o => o)
                   [mkItem "string" None]
                   [fileItem (FileEntry "/a.obj" (Some (mkFile "a.obj" "v" false)))]
                   sampleScene [] _) _ (steps_refl _)).
  constructor; [discriminate|constructor].
Defined.

(** X7. When no item is of kind [file], nothing is handled, the promise stays
    pending for ever, and the call of [loadModel] never ends: it neither
    returns nor throws, and no notification is shown. *)
Theorem drop_without_files_never_ends
    (dec : Decoders) (normalizeModel : Object3D -> Object3D)
    (items : list Item) (scene : Scene) (log : list Event) :
  Forall (fun item => kind item <> "file") items ->
  (forall st, steps (getFilesFromItemList items) st -> st = initAgg) /\
  (forall ending,
     ~ loadModel dec normalizeModel (ItemList items) scene log ending).
Proof.
  intros Hskip.
  assert (Hstart : getFilesFromItemList items = initAgg).
  { unfold getFilesFromItemList.
    rewrite <- (app_nil_r items). by rewrite (executor_skip _ _ _ Hskip). }
  assert (Hall : forall st, steps (getFilesFromItemList items) st -> st = initAgg).
  { intros st Hsteps. rewrite Hstart in Hsteps.
    by apply (steps_idle initAgg). }
  split; [exact Hall|].
  intros ending H.
  inversion H as [|items' st agg scene' log' run Hsteps Hp Hrun
                  |items' st scene' log' Hsteps Hp]; subst.
  - by rewrite (Hall _ Hsteps) in Hp.
  - by rewrite (Hall _ Hsteps) in Hp.
Qed.

Lemma drop_without_files_never_ends_witness :
  getFilesFromItemList [mkItem "string" None; mkItem "string" None] = initAgg.
Proof.
  refine (proj1 (drop_without_files_never_ends accepting (fun o => o)
                   [mkItem "string" None; mkItem "string" None] sampleScene [] _)
                _ (steps_refl _)).
  repeat constructor; discriminate.
Defined.

Lemma onEntryHandled_rejected st :
  promise st = Rejected -> promise (onEntryHandled st) = Rejected.
Proof.
  intros H. rewrite onEntryHandled_eq. case_match; simpl; by rewrite H.
Qed.

Lemma foldl_handleEntry_rejected entries st :
  promise st = Rejected -> promise (foldl handleEntry st entries) = Rejected.
Proof.
  revert st. induction entries as [|e entries IH]; intros st H; simpl; [done|].
  apply IH. destruct e as [ds|fullPath [file|]|]; simpl; try done.
  by apply onEntryHandled_rejected.
Qed.

Lemma steps_rejected st st' :
  steps st st' -> promise st = Rejected -> promise st' = Rejected.
Proof.
  induction 1 as [|st1 st2 st3 Hstep _ IH]; [done|].
  intros H. apply IH. destruct Hstep as [pre t post st Hp].
  destruct t as [entries|fullPath file]; simpl.
  - by apply onEntryHandled_rejected, foldl_handleEntry_rejected.
  - by apply onEntryHandled_rejected.
Qed.

Lemma executor_app pre entries rest st :
  droppedEntries pre = Some entries ->
  executor (pre ++ rest) st = executor rest (executor pre st).
Proof.
  revert entries st. induction pre as [|item pre IH]; intros entries st; simpl; [done|].
  destruct (String.eqb (kind item) "file"); [|by apply IH].
  destruct (webkitGetAsEntry item) as [e|]; [|done].
  destruct (droppedEntries pre) as [es|] eqn:Hd; [|done].
  intros _. by apply (IH es).
Qed.

(** X8. An item of kind [file] without an entry makes the executor throw: if
    the promise is still pending then, it is rejected for good, the items
    after it are never looked at, and [loadModel] can only throw; it shows
    no notification and does not touch the scene. *)
Theorem missing_entry_rejects
    (dec : Decoders) (normalizeModel : Object3D -> Object3D)
    (pre post : list Item) (entries : list Entry) (item : Item)
    (scene : Scene) (log : list Event) :
  droppedEntries pre = Some entries ->
  promise (getFilesFromItemList pre) = Pending ->
  kind item = "file" ->
  webkitGetAsEntry item = None ->
  pending (getFilesFromItemList (pre ++ item :: post)) = flat_map queued entries /\
  (forall st, steps (getFilesFromItemList (pre ++ item :: post)) st ->
              promise st = Rejected) /\
  (forall ending,
     loadModel dec normalizeModel (ItemList (pre ++ item :: post)) scene log ending ->
     ending = Threw).
Proof.
  intros Hd Hpend Hk Hnull.
  assert (Hstart : getFilesFromItemList (pre ++ item :: post) =
                   throwInExecutor (countEntry (getFilesFromItemList pre))).
  { unfold getFilesFromItemList. rewrite (executor_app _ _ _ _ Hd). simpl.
    by rewrite Hk, Hnull. }
  assert (Hrej : promise (getFilesFromItemList (pre ++ item :: post)) = Rejected).
  { rewrite Hstart. simpl. by rewrite Hpend. }
  assert (Hall : forall st, steps (getFilesFromItemList (pre ++ item :: post)) st ->
                            promise st = Rejected).
  { intros st Hsteps. by apply (steps_rejected _ _ Hsteps). }
  split; [|split; [exact Hall|]].
  - rewrite Hstart. simpl. by apply getFilesFromItemList_pending.
  - intros ending H.
    inversion H as [|items' st agg scene' log' run Hsteps Hp Hrun
                    |items' st scene' log' Hsteps Hp]; subst; [|done].
    by rewrite (Hall _ Hsteps) in Hp.
Qed.

Lemma missing_entry_rejects_witness :
  let first := FileEntry "/a.obj" (Some (mkFile "a.obj" "v" false)) in
  let items := [fileItem first] ++ mkItem "file" None :: [fileItem OtherEntry] in
  pending (getFilesFromItemList items) = flat_map queued [first] /\
  promise (getFilesFromItemList items) = Rejected.
Proof.
  intros first items.
  destruct (missing_entry_rejects accepting (fun o => o)
              [fileItem first] [fileItem OtherEntry] [first]
              (mkItem "file" None) sampleScene [] eq_refl eq_refl eq_refl eq_refl)
    as (Hpending & Hrejected & _).
  split; [exact Hpending|exact (Hrejected _ (steps_refl _))].
Defined.

(** ** What an orderly drop aggregates *)

Lemma tableOf_list_to_map registered :
  tableOf registered = list_to_map (reverse (binding <$> registered)).
Proof.
  induction registered as [|[p f] registered IH] using rev_ind; [done|].
  rewrite tableOf_snoc, fmap_app, reverse_app, IH. done.
Qed.

Lemma tableOf_dom registered :
  dom (tableOf registered) = list_to_set (keyOf <$> registered).
Proof.
  induction registered as [|[p f] registered IH] using rev_ind; [done|].
  rewrite tableOf_snoc, dom_insert_L, IH, fmap_app, list_to_set_app_L.
  simpl. rewrite (right_id_L ∅ (∪)). apply (comm_L (∪)).
Qed.

Lemma binding_keys l : (binding <$> l).*1 = keyOf <$> l.
Proof. induction l as [|[p f] l IH]; [done|]. csimpl. by rewrite IH. Qed.

(** Registering files with distinct keys gives the same table in any
    order. *)
Lemma tableOf_perm registered all :
  registered ≡ₚ all ->
  NoDup (keyOf <$> all) ->
  tableOf registered = tableOf all.
Proof.
  intros Hperm Hnd. rewrite !tableOf_list_to_map.
  apply list_to_map_proper.
  - by rewrite fmap_reverse, binding_keys, reverse_Permutation, Hperm.
  - by rewrite !reverse_Permutation, Hperm.
Qed.

Lemma tableOf_perm_lookup registered all p f :
  registered ≡ₚ all ->
  NoDup (keyOf <$> all) ->
  (p, f) ∈ all ->
  tableOf registered !! slice1 p = Some f.
Proof.
  intros Hperm Hnd Hin.
  rewrite (tableOf_perm _ _ Hperm Hnd), tableOf_list_to_map.
  apply elem_of_list_to_map.
  - by rewrite fmap_reverse, binding_keys, reverse_Permutation.
  - rewrite elem_of_reverse.
    apply (list_elem_of_fmap_2 binding _ (p, f)) in Hin. exact Hin.
Qed.

Lemma tableOf_miss registered all k :
  registered ≡ₚ all ->
  (forall pf, pf ∈ all -> keyOf pf <> k) ->
  tableOf registered !! k = None.
Proof.
  intros Hperm Hmiss. apply not_elem_of_dom. rewrite tableOf_dom.
  rewrite elem_of_list_to_set, list_elem_of_fmap.
  intros (pf & -> & Hin). rewrite Hperm in Hin. by apply (Hmiss pf).
Qed.

Lemma orderly_fulfilled all st agg :
  Orderly all st ->
  promise st = Fulfilled agg ->
  exists registered,
    registered ≡ₚ all /\ agg = (registered.*2, tableOf registered).
Proof.
  intros [_ _ Hwait Hres (registered & Hfiles & Hmap & Hperm)] Hp.
  destruct (pending st) as [|t rest] eqn:Hq.
  - destruct (Hres eq_refl) as [Hprom _]. rewrite Hprom in Hp.
    injection Hp as <-. exists registered.
    simpl in Hperm. rewrite app_nil_r in Hperm. by rewrite Hfiles, Hmap.
  - destruct Hwait as [Hprom _]; [done|]. by rewrite Hprom in Hp.
Qed.

Lemma ownKeys_tableOf registered :
  ownKeys (tableOf registered) =
  list_to_set (keyOf <$> registered) ∖ {["__proto__"]}.
Proof. unfold ownKeys. by rewrite tableOf_dom. Qed.

(** X9. On an orderly drop, what the promise is fulfilled with does not
    depend on the order of the callbacks beyond the order of the list.  The
    list holds the files of the drop, each as often as it was dropped.  The
    own keys of the table are their paths without the leading slash, the
    path [/__proto__] excepted, which makes its file the prototype of the
    table instead.  When the paths are distinct the table, prototype
    included, is the same under every order, and reading it at the path of
    a dropped file gives that file. *)
Theorem aggregate_is_order_independent
    (items : list Item) (st : AggState) (agg : Aggregate) :
  orderlyDrop items = true ->
  steps (getFilesFromItemList items) st ->
  promise st = Fulfilled agg ->
  agg.1 ≡ₚ (dropFiles items).*2 /\
  ownKeys agg.2 = list_to_set (keyOf <$> dropFiles items) ∖ {["__proto__"]} /\
  (NoDup (keyOf <$> dropFiles items) -> agg.2 = tableOf (dropFiles items)) /\
  (forall p f, NoDup (keyOf <$> dropFiles items) ->
               (p, f) ∈ dropFiles items -> readKey agg.2 (slice1 p) = Stored f).
Proof.
  intros Hdrop Hsteps Hp.
  destruct (getFilesFromItemList_orderly items Hdrop) as [Hinit _].
  destruct (orderly_fulfilled _ _ _ (steps_orderly _ _ _ Hinit Hsteps) Hp)
    as (registered & Hperm & ->). simpl.
  split; [by rewrite Hperm|]. split; [|split].
  - rewrite ownKeys_tableOf. f_equal. apply set_eq. intros k.
    rewrite !elem_of_list_to_set. by rewrite Hperm.
  - intros Hnd. by apply tableOf_perm.
  - intros p f Hnd Hin. apply readKey_stored.
    by apply (tableOf_perm_lookup _ _ _ _ Hperm Hnd Hin).
Qed.

Lemma aggregate_is_order_independent_witness :
  let model := mkFile "a.obj" "v 0 0 0" false in
  let hidden := mkFile "__proto__" "x" false in
  let items := [fileItem (Directory [OtherEntry;
                                     FileEntry "/d/a.obj" (Some model)]);
                fileItem (FileEntry "/__proto__" (Some hidden))] in
  let st := drain 3 (getFilesFromItemList items) in
  (files st, filesMap st).1 ≡ₚ (dropFiles items).*2 /\
  ownKeys (files st, filesMap st).2 =
    list_to_set (keyOf <$> dropFiles items) ∖ {["__proto__"]}.
Proof.
  intros model hidden items st.
  assert (Hprom : promise st = Fulfilled (files st, filesMap st))
    by (vm_compute; reflexivity).
  destruct (aggregate_is_order_independent items st _ eq_refl (drain_steps 3 _) Hprom)
    as (H1 & H2 & _).
  split; [exact H1|exact H2].
Defined.

Lemma primaryFile_perm files files' f :
  files ≡ₚ files' ->
  f ∈ files ->
  isPrimary f = true ->
  (forall g, g ∈ files -> isPrimary g = true -> g = f) ->
  primaryFile files' = Some f.
Proof.
  intros Hperm Hin Hf Huniq. unfold primaryFile.
  destruct (List.find isPrimary files') as [g|] eqn:Hfind.
  - apply List.find_some in Hfind as [Hg Hpg].
    apply list_elem_of_In in Hg. rewrite <- Hperm in Hg.
    by rewrite (Huniq g Hg Hpg).
  - rewrite Hperm in Hin. apply list_elem_of_In in Hin.
    by rewrite (List.find_none _ _ Hfind f Hin) in Hf.
Qed.

(** X10. When exactly one file of an orderly drop has a supported extension,
    it is the primary file under every order of the callbacks. *)
Theorem single_model_is_primary_in_any_order
    (items : list Item) (st : AggState) (agg : Aggregate) (f : File) :
  orderlyDrop items = true ->
  steps (getFilesFromItemList items) st ->
  promise st = Fulfilled agg ->
  f ∈ (dropFiles items).*2 ->
  isPrimary f = true ->
  (forall g, g ∈ (dropFiles items).*2 -> isPrimary g = true -> g = f) ->
  primaryFile agg.1 = Some f.
Proof.
  intros Hdrop Hsteps Hp Hin Hf Huniq.
  destruct (getFilesFromItemList_orderly items Hdrop) as [Hinit _].
  destruct (orderly_fulfilled _ _ _ (steps_orderly _ _ _ Hinit Hsteps) Hp)
    as (registered & Hperm & ->). simpl.
  apply (primaryFile_perm (dropFiles items).*2); try done.
  by rewrite Hperm.
Qed.

Lemma single_model_is_primary_in_any_order_witness :
  let model := mkFile "a.obj" "v 0 0 0" false in
  let library := mkFile "a.mtl" "newmtl m" false in
  let items := [fileItem (FileEntry "/a.mtl" (Some library));
                fileItem (Directory [FileEntry "/d/a.obj" (Some model)])] in
  let st := drain 3 (getFilesFromItemList items) in
  primaryFile (files st, filesMap st).1 = Some model.
Proof.
  intros model library items st.
  assert (Hprom : promise st = Fulfilled (files st, filesMap st))
    by (vm_compute; reflexivity).
  refine (single_model_is_primary_in_any_order items st _ model eq_refl
            (drain_steps 3 _) Hprom _ eq_refl _).
  - apply list_elem_of_In. simpl. auto.
  - intros g Hg Hpg. apply list_elem_of_In in Hg. simpl in Hg.
    destruct Hg as [<-|[<-|[]]]; [discriminate Hpg|reflexivity].
Defined.

(** ** loadFile: which files it decodes *)

Lemma isPrimary_format f :
  isPrimary f = true <-> is_Some (formatOf (extensionOf (name f))).
Proof.
  unfold isPrimary, topLevelExtensions. rewrite includes_elem.
  generalize (extensionOf (name f)). intros e.
  rewrite !elem_of_cons, elem_of_nil. split.
  - intros [->|[->|[->|[->|[->|[->|[->|[]]]]]]]]; by eexists.
  - intros [fmt Hfmt]. apply formatOf_name in Hfmt as ->.
    destruct fmt; simpl; auto 10.
Qed.

Lemma readFile_binary ext file :
  unreadable file = false ->
  includes ["gltf"; "obj"] ext = false ->
  readFile ext file = Some (ArrayBuffer (bytes file)).
Proof. intros Hr He. unfold readFile. by rewrite Hr, He. Qed.

(** X12. [loadFile] has a case for exactly the extensions [loadModel] selects:
    the file [loadModel] picks never reaches the default case, and a
    readable file it would not pick is rejected there as unsupported, empty
    or not, without any decoder being consulted. *)
Theorem dispatch_covers_selection
    (dec : Decoders) (fuel : nat) (file : File) (manager : LoadingManager)
    (log : list Event) :
  (isPrimary file = true <-> is_Some (formatOf (extensionOf (name file)))) /\
  (isPrimary file = false -> unreadable file = false ->
   loadFile dec (S fuel) file manager log =
     Some (Failed (UnsupportedFormat (extensionOf (name file))), log)).
Proof.
  split; [apply isPrimary_format|].
  intros Hp Hr. rewrite loadFile_S. unfold loadFileBody.
  assert (Hnone : formatOf (extensionOf (name file)) = None).
  { destruct (formatOf _) eqn:Hf; [|done].
    assert (isPrimary file = true) by (apply isPrimary_format; by rewrite Hf).
    congruence. }
  assert (Htext : includes ["gltf"; "obj"] (extensionOf (name file)) = false).
  { destruct (includes _ _) eqn:Hi; [|done].
    apply includes_elem in Hi. rewrite !elem_of_cons, elem_of_nil in Hi.
    destruct Hi as [Hi|[Hi|[]]]; rewrite Hi in Hnone; discriminate Hnone. }
  by rewrite (readFile_binary _ _ Hr Htext), Hnone.
Qed.

(** ** loadFile: the name of the result *)

Lemma lift_name r filename o : lift r filename = Resolved o -> obj_name o = filename.
Proof. destruct r as [error|object]; simpl; [done|]. by intros [= <-]. Qed.

Lemma loadFile_flat_name dec file manager log o log' :
  formatOf (extensionOf (name file)) <> Some ZIP ->
  loadFile dec 1 file manager log = Some (Resolved o, log') ->
  obj_name o = name file.
Proof.
  intros Hz. rewrite loadFile_S. unfold loadFileBody.
  destruct (readFile _ file) as [contents|]; [|done].
  destruct (falsy contents); [done|].
  destruct (formatOf _) as [[]|]; try done.
  - intros [= H _]. by apply lift_name in H.
  - unfold loadGLTF. destruct (GLTFLoader_parse dec _ _); [done|]. by intros [= <- _].
  - unfold loadGLTF. destruct (GLTFLoader_parse dec _ _); [done|]. by intros [= <- _].
  - intros [= H _]. by apply lift_name in H.
  - destruct (PLYLoader_parse dec _); [done|]. by intros [= <- _].
  - destruct (STLLoader_parse dec _); [done|]. by intros [= <- _].
Qed.

(** X13. The object a load resolves with carries the name of the file that was
    decoded: the file's own name, or, for an archive, the path of the first
    model entry inside it, not the name of the archive. *)
Theorem loaded_object_is_named_after_decoded_file
    (dec : Decoders) (fuel : nat) (file : File) (manager : LoadingManager)
    (log log' : list Event) (o : Object3D) :
  loadFile dec (S (S fuel)) file manager log = Some (Resolved o, log') ->
  (formatOf (extensionOf (name file)) <> Some ZIP -> obj_name o = name file) /\
  (formatOf (extensionOf (name file)) = Some ZIP ->
   exists zip path fileData,
     unzipSync dec (bytes file) = inr zip /\
     List.find modelEntry zip = Some (path, fileData) /\
     obj_name o = path).
Proof.
  rewrite loadFile_enough. intros Hload. split.
  - intros Hz. rewrite (loadFile_flat dec 1 _ _ _ Hz) in Hload.
    by apply (loadFile_flat_name dec file manager log o log').
  - intros Hz. revert Hload. rewrite loadFile_S. unfold loadFileBody.
    unfold readFile. destruct (unreadable file); [done|].
    assert (Ht : includes ["gltf"; "obj"] (extensionOf (name file)) = false).
    { apply formatOf_name in Hz. by rewrite Hz. }
    rewrite Ht, Hz. simpl.
    destruct (unzipSync dec (bytes file)) as [error|zip]; [done|].
    rewrite scanZip_find.
    destruct (List.find modelEntry zip) as [[path fileData]|] eqn:Hfind; [|done].
    intros Hload. exists zip, path, fileData. split; [done|]. split; [done|].
    apply List.find_some in Hfind as [_ Hm].
    apply (loadFile_flat_name dec (mkFile path fileData false)
             (ZipManager zip) log o log'); [|done].
    simpl. unfold modelEntry in Hm. simpl in Hm.
    destruct (zipExtensions_formats _ Hm) as (fmt & -> & Hne). congruence.
Qed.

Lemma loaded_object_is_named_after_decoded_file_witness :
  exists zip path fileData,
    unzipSync accepting "PK" = inr zip /\
    List.find modelEntry zip = Some (path, fileData) /\
    obj_name (wrapSTL (mkGeometry None ["position"; "normal"; "color"])
                      "mesh/part.stl") = path.
Proof.
  exact (proj2 (loaded_object_is_named_after_decoded_file accepting 0
                 (mkFile "bundle.zip" "PK" false) (OuterManager ∅) [] []
                 (wrapSTL (mkGeometry None ["position"; "normal"; "color"])
                          "mesh/part.stl")
                 eq_refl) eq_refl).
Defined.

(** ** loadFile: reading comes first *)

(** X14. A file is read before its extension is looked at.  A failed read
    rejects with the reader's error, whatever the extension and the
    decoders.  An empty file read as text ([gltf], [obj]) is taken for a
    failed read and never reaches its decoder, while an empty file read as
    bytes is handed to its decoder like any other. *)
Theorem reading_comes_first
    (dec : Decoders) (fuel : nat) (file : File) (manager : LoadingManager)
    (log : list Event) :
  (unreadable file = true ->
   loadFile dec (S fuel) file manager log = Some (Failed ReaderError, log)) /\
  (unreadable file = false -> bytes file = "" ->
   includes ["gltf"; "obj"] (extensionOf (name file)) = true ->
   loadFile dec (S fuel) file manager log = Some (Failed FileReadFailed, log)) /\
  (unreadable file = false -> bytes file = "" ->
   extensionOf (name file) = "stl" ->
   loadFile dec (S fuel) file manager log =
     Some (match STLLoader_parse dec "" with
           | inr geometry => Resolved (wrapSTL geometry (name file))
           | inl error => Failed error
           end, log)).
Proof.
  rewrite loadFile_S. unfold loadFileBody, readFile. split; [|split].
  - by intros ->.
  - intros -> -> ->. done.
  - intros -> -> ->. simpl. by destruct (STLLoader_parse dec "").
Qed.

(** ** loadFile: the transcoders *)

Lemma live_released t log :
  live t (log ++ acquired ++ released) = live t log.
Proof.
  unfold live. rewrite !count_occ_app. destruct t; simpl.
  - repeat (destruct (Event_eq_dec _ _); try done). all: lia.
  - repeat (destruct (Event_eq_dec _ _); try done). all: lia.
Qed.

Lemma live_acquired t log :
  live t log <= live t (log ++ acquired) <= S (live t log).
Proof.
  unfold live. rewrite !count_occ_app. destruct t; simpl.
  - repeat (destruct (Event_eq_dec _ _); try done). all: lia.
  - repeat (destruct (Event_eq_dec _ _); try done). all: lia.
Qed.

Lemma loadGLTF_log dec manager contents filename log :
  loadGLTF dec manager contents filename log =
  match GLTFLoader_parse dec manager contents with
  | inr result =>
      (Resolved (pushAnimations (setName (gltf_scene result) filename)
                                (gltf_animations result)),
       log ++ acquired ++ released)
  | inl error => (Failed error, log ++ acquired)
  end.
Proof.
  unfold loadGLTF. destruct (GLTFLoader_parse dec manager contents); [done|].
  by rewrite <- app_assoc.
Qed.

(** What a load adds to the log, for every amount of fuel. *)
Lemma loadFile_log dec fuel file manager log outcome log' :
  loadFile dec fuel file manager log = Some (outcome, log') ->
  match outcome with
  | Resolved _ => log' = log \/ log' = log ++ acquired ++ released
  | Failed _ => log' = log \/ log' = log ++ acquired
  end.
Proof.
  revert file manager. induction fuel as [|fuel IH]; intros file manager; [done|].
  rewrite loadFile_S. unfold loadFileBody.
  destruct (readFile _ file) as [contents|]; [|intros [= <- <-]; by left].
  destruct (falsy contents); [intros [= <- <-]; by left|].
  destruct (formatOf _) as [[]|].
  - destruct (FBXLoader_parse dec _ _); intros [= <- <-]; by left.
  - rewrite loadGLTF_log. destruct (GLTFLoader_parse dec _ _);
      intros [= <- <-]; by right.
  - rewrite loadGLTF_log. destruct (GLTFLoader_parse dec _ _);
      intros [= <- <-]; by right.
  - destruct (OBJLoader_parse dec _ _); intros [= <- <-]; by left.
  - destruct (PLYLoader_parse dec _); intros [= <- <-]; by left.
  - destruct (STLLoader_parse dec _); intros [= <- <-]; by left.
  - destruct (unzipSync dec _) as [error|zip]; [intros [= <- <-]; by left|].
    rewrite scanZip_find.
    destruct (List.find modelEntry zip) as [[path fileData]|].
    + apply IH.
    + intros [= <- <-]. by left.
  - intros [= <- <-]. by left.
Qed.

(** X15. Whatever is loaded, an archive included, the log of transcoders only
    grows, and by one of three tails: nothing, a pair created and disposed
    of, or, on failure only, a pair created and left.  So a load that
    resolves leaves as many live transcoders as it found, and a load that
    fails leaves at most one more of each kind. *)
Theorem loads_that_resolve_release_transcoders
    (dec : Decoders) (fuel : nat) (file : File) (manager : LoadingManager)
    (log log' : list Event) (outcome : Outcome) (t : Transcoder) :
  loadFile dec fuel file manager log = Some (outcome, log') ->
  log `prefix_of` log' /\
  match outcome with
  | Resolved _ =>
      (log' = log \/ log' = log ++ acquired ++ released) /\
      live t log' = live t log
  | Failed _ =>
      (log' = log \/ log' = log ++ acquired) /\
      live t log <= live t log' <= S (live t log)
  end.
Proof.
  intros Hload. pose proof (loadFile_log _ _ _ _ _ _ _ Hload) as Hlog.
  destruct outcome as [o|error]; destruct Hlog as [->| ->].
  - split; [done|]. split; [by left|done].
  - split; [by apply prefix_app_r|]. split; [by right|apply live_released].
  - split; [done|]. split; [by left|lia].
  - split; [by apply prefix_app_r|]. split; [by right|apply live_acquired].
Qed.

Lemma loads_that_resolve_release_transcoders_witness :
  live DRACOLoader [Created DRACOLoader; Created KTX2Loader;
                    Disposed DRACOLoader; Disposed KTX2Loader] =
  live DRACOLoader [].
Proof.
  exact (proj2 (proj2 (loads_that_resolve_release_transcoders accepting 2
           (mkFile "scene.glb" "glTF" false) (OuterManager ∅) []
           [Created DRACOLoader; Created KTX2Loader;
            Disposed DRACOLoader; Disposed KTX2Loader]
           (Resolved (pushAnimations (setName (sampleGroup "gltf") "scene.glb")
                                     ["walk"]))
           DRACOLoader eq_refl))).
Defined.

(** ** loadFile: which manager the decoders see *)

(** X16. An archive is loaded the same whatever manager [loadFile] was called
    with: the file inside is decoded with the archive's own manager, and
    the outer table is out of reach.  The [ply] and [stl] decoders are given
    no manager at all. *)
Theorem archive_ignores_outer_manager
    (dec : Decoders) (fuel : nat) (file : File) (m1 m2 : LoadingManager)
    (log : list Event) :
  formatOf (extensionOf (name file)) = Some ZIP \/
  formatOf (extensionOf (name file)) = Some PLY \/
  formatOf (extensionOf (name file)) = Some STL ->
  loadFile dec fuel file m1 log = loadFile dec fuel file m2 log.
Proof.
  intros Hf. destruct fuel as [|fuel]; [done|].
  rewrite !loadFile_S. unfold loadFileBody.
  destruct (readFile _ file) as [contents|]; [|done].
  destruct (falsy contents); [done|].
  destruct Hf as [->|[->| ->]]; done.
Qed.

Lemma archive_ignores_outer_manager_witness :
  loadFile accepting 2 (mkFile "bundle.zip" "PK" false) (OuterManager ∅) [] =
  loadFile accepting 2 (mkFile "bundle.zip" "PK" false)
           (ZipManager [("tex.png", "PNG")]) [].
Proof.
  exact (archive_ignores_outer_manager accepting 2 (mkFile "bundle.zip" "PK" false)
           (OuterManager ∅) (ZipManager [("tex.png", "PNG")]) []
           (or_introl eq_refl)).
Defined.

(** ** loadFile: the depth of the recursion *)

Lemma find_modelEntry_zips zip :
  Forall (fun e => extensionOf e.1 = "zip") zip ->
  List.find modelEntry zip = None.
Proof.
  induction 1 as [|e zip He _ IH]; simpl; [done|].
  unfold modelEntry at 1. rewrite He.
  change (includes zipExtensions "zip") with false. exact IH.
Qed.

(** X17. The recursive call of the [zip] case never recurses again: the entry it
    loads has an extension other than [zip].  So two levels of [loadFile]
    settle every load, and further levels change nothing; an archive
    holding only archives is rejected for want of a model. *)
Theorem recursion_is_one_level_deep
    (dec : Decoders) (fuel : nat) (file : File) (manager : LoadingManager)
    (log : list Event) :
  loadFile dec (S (S fuel)) file manager log = loadFile dec 2 file manager log /\
  is_Some (loadFile dec 2 file manager log) /\
  (forall zip,
     extensionOf (name file) = "zip" -> unreadable file = false ->
     unzipSync dec (bytes file) = inr zip ->
     Forall (fun e => extensionOf e.1 = "zip") zip ->
     loadFile dec 2 file manager log = Some (Failed NoModelInZip, log)).
Proof.
  split; [apply loadFile_enough|]. split; [apply loadFile_total|].
  intros zip Hext Hr Hzip Hall.
  rewrite (loadFile_zip _ _ _ _ _ _ Hext Hr Hzip).
  by rewrite (find_modelEntry_zips zip Hall).
Qed.

(** ** Resolving what was dropped *)




Lemma createObjectURL_grows blob store :
  store `prefix_of` store ++ [blob] /\
  (forall b data, fetchBytes store b = Some data ->
                  fetchBytes (store ++ [blob]) b = Some data) /\
  fetchBytes store (ObjectURL (length store)) = None /\
  length (store ++ [blob]) = S (length store).
Proof.
  split; [by apply prefix_app_r|]. split; [|split].
  - intros [id|ref| |member] data; simpl; try done.
    destruct (store !! id) as [x|] eqn:Hid; [|done].
    intros H. by rewrite (lookup_app_l_Some _ _ _ _ Hid).
  - simpl. by rewrite lookup_ge_None_2.
  - rewrite length_app. simpl. lia.
Qed.

(** X19. Object URLs are never revoked and never reused.  A call of a
    modifier leaves every URL handed out before readable, with the same
    bytes.  Either it creates nothing and hands out no object URL, or it
    creates exactly one blob and hands out a URL that did not exist
    before; asked the same reference again, it then hands out yet another
    new URL. *)
Theorem object_urls_stay_valid
    (manager : LoadingManager) (url : string) (store store' : list Blob)
    (a : Address) :
  resolveURL manager url store = (a, store') ->
  store `prefix_of` store' /\
  (forall b data, fetchBytes store b = Some data -> fetchBytes store' b = Some data) /\
  (store' = store /\ (forall id, a <> ObjectURL id) \/
   a = ObjectURL (length store) /\ length store' = S (length store) /\
   fetchBytes store a = None /\
   exists store'', resolveURL manager url store' = (ObjectURL (S (length store)), store'')).
Proof.
  destruct manager as [filesMap|zip]; simpl.
  - unfold outerURLModifier. cbv zeta.
    destruct (readKey filesMap (stripLeading url)) as [file| | |];
      try (intros [= <- <-]; split; [done|]; split; [done|]; left;
           split; [done|intros id; discriminate]).
    intros [= <- <-].
    destruct (createObjectURL_grows (OfFile file) store) as (H1 & H2 & H3 & H4).
    split; [done|]. split; [done|]. right. split_and!; try done.
    eexists. unfold createObjectURL. by rewrite H4.
  - unfold zipURLModifier.
    destruct (zipRead zip url) as [data| | |];
      try (intros [= <- <-]; split; [done|]; split; [done|]; left;
           split; [done|intros id; discriminate]).
    + intros [= <- <-].
      destruct (createObjectURL_grows (OfBytes data "application/octet-stream") store)
        as (H1 & H2 & H3 & H4).
      split; [done|]. split; [done|]. right. split_and!; try done.
      eexists. unfold createObjectURL. by rewrite H4.
    + intros [= <- <-].
      destruct (createObjectURL_grows
                  (OfBytes "undefined" "application/octet-stream") store)
        as (H1 & H2 & H3 & H4).
      split; [done|]. split; [done|]. right. split_and!; try done.
      eexists. unfold createObjectURL. by rewrite H4.
Qed.

Lemma object_urls_stay_valid_witness :
  [OfBytes "old" "text/plain"] `prefix_of`
  [OfBytes "old" "text/plain"; OfBytes "undefined" "application/octet-stream"].
Proof.
  exact (proj1 (object_urls_stay_valid (ZipManager [("tex.png", "PNG")])
           "constructor" [OfBytes "old" "text/plain"]
           [OfBytes "old" "text/plain";
            OfBytes "undefined" "application/octet-stream"]
           (ObjectURL 1) eq_refl)).
Defined.

(** ** clearScene and the scene across loads *)

Lemma filter_helpers_models l :
  List.filter (fun child => negb (isHelper child)) (List.filter isHelper l) = [].
Proof.
  induction l as [|x l IH]; simpl; [done|].
  destruct (isHelper x) eqn:Hx; simpl; [by rewrite Hx|done].
Qed.

Lemma filter_helpers_id l :
  List.filter (fun child => negb (isHelper child)) l = [] ->
  List.filter isHelper l = l.
Proof.
  induction l as [|x l IH]; simpl; [done|].
  destruct (isHelper x); simpl; [|done]. intros H. by rewrite IH.
Qed.

Lemma clearScene_eq scene : clearScene scene = mkScene (List.filter isHelper (children scene)).
Proof.
  pose proof (clearScene_children scene) as H.
  destruct (clearScene scene) as [l]. simpl in H. by rewrite H.
Qed.

(** X22. [clearScene] leaves no model behind, changes nothing in a scene
    without models, and does nothing when applied twice that it did not do
    the first time; an object added to the scene is removed by it exactly
    when it is not a camera, a light or an axes helper. *)
Theorem clearScene_removes_models_only (scene : Scene) (object : Object3D) :
  models (clearScene scene) = [] /\
  (models scene = [] -> clearScene scene = scene) /\
  clearScene (clearScene scene) = clearScene scene /\
  clearScene (add scene object) =
    if isHelper object then add (clearScene scene) object else clearScene scene.
Proof.
  unfold models. rewrite !clearScene_eq. simpl. split_and!.
  - apply filter_helpers_models.
  - intros H. destruct scene as [l]. simpl in *. by rewrite filter_helpers_id.
  - by rewrite filter_helpers_id by apply filter_helpers_models.
  - rewrite List.filter_app. simpl. destruct (isHelper object); simpl.
    + done.
    + by rewrite app_nil_r.
Qed.

(** ** loadModel, whatever is dropped *)

(** X23. Every call of [loadModel] that gets its files runs to its end and
    does one of two things: it leaves the scene as it was, with at most one
    notification, or it shows no notification and leaves the children that
    carry one of the flags [isCamera], [isLight], [isAxesHelper], in their
    order, followed by one new object.  Children carrying such a flag stay
    in either case; a child carrying none, the axes helper of three.js
    among them, is gone after a swap.  The log of transcoders only
    grows. *)
Theorem loadModel_notifies_or_swaps
    (dec : Decoders) (normalizeModel : Object3D -> Object3D)
    (agg : Aggregate) (scene : Scene) (log : list Event) :
  exists run,
    loadModelFrom dec normalizeModel agg scene log = Some run /\
    length (alerts run) <= 1 /\
    (scene_after run = scene \/
     alerts run = [] /\
     exists object,
       children (scene_after run) =
       List.filter isHelper (children scene) ++ [object]) /\
    (forall child, child ∈ children scene -> isHelper child = true ->
                   child ∈ children (scene_after run)) /\
    log `prefix_of` log_after run.
Proof.
  destruct agg as [files filesMap]. unfold loadModelFrom.
  destruct (length files =? 0)%nat.
  { eexists. split; [reflexivity|]. simpl. split_and!; auto. }
  destruct (primaryFile files) as [primary|].
  2: { eexists. split; [reflexivity|]. simpl. split_and!; auto. }
  destruct (loadFile_total dec primary (OuterManager filesMap) log)
    as [[outcome log'] Hload].
  rewrite Hload.
  assert (Hprefix : log `prefix_of` log').
  { pose proof (loadFile_log _ _ _ _ _ _ _ Hload) as Hlog.
    destruct outcome; destruct Hlog as [->| ->]; try done; by apply prefix_app_r. }
  destruct outcome as [object|error].
  - eexists. split; [reflexivity|]. simpl. rewrite clearScene_children.
    split_and!; [lia| |..|done].
    + right. split; [done|]. by eexists.
    + intros child Hin Hh. apply elem_of_app. left.
      apply list_elem_of_In, List.filter_In.
      split; [by apply list_elem_of_In|done].
  - eexists. split; [reflexivity|]. simpl. split_and!; auto.
Qed.

Lemma loadModel_notifies_or_swaps_aux dec normalizeModel agg scene log :
  exists run,
    loadModelFrom dec normalizeModel agg scene log = Some run /\
    (scene_after run = scene \/
     exists object,
       children (scene_after run) =
       List.filter isHelper (children scene) ++ [object]).
Proof.
  destruct agg as [files filesMap]. unfold loadModelFrom.
  destruct (length files =? 0)%nat; [eexists; split; [reflexivity|by left]|].
  destruct (primaryFile files) as [primary|];
    [|eexists; split; [reflexivity|by left]].
  destruct (loadFile_total dec primary (OuterManager filesMap) log)
    as [[[object|error] log'] ->].
  - eexists. split; [reflexivity|]. right. simpl.
    rewrite clearScene_children. by eexists.
  - eexists. split; [reflexivity|by left].
Qed.

Lemma session_total dec normalizeModel drops scene log :
  is_Some (session dec normalizeModel drops scene log).
Proof.
  revert scene log. induction drops as [|agg drops IH]; intros scene log; simpl.
  - done.
  - destruct (loadModelFrom_total dec normalizeModel agg scene log) as [run ->].
    apply IH.
Qed.

Lemma models_after_swap l object :
  length (List.filter (fun child => negb (isHelper child))
            (List.filter isHelper l ++ [object])) <= 1.
Proof.
  rewrite List.filter_app, filter_helpers_models. simpl.
  destruct (isHelper object); simpl; lia.
Qed.

Lemma session_invariant dec normalizeModel drops scene log scene' log' lights :
  Forall (fun child => isHelper child = true) lights ->
  lights `prefix_of` children scene ->
  length (models scene) <= 1 ->
  session dec normalizeModel drops scene log = Some (scene', log') ->
  lights `prefix_of` children scene' /\ length (models scene') <= 1.
Proof.
  intros Hl. revert scene log.
  induction drops as [|agg drops IH]; intros scene log Hpre Hone; simpl.
  - by intros [= <- <-].
  - destruct (loadModel_notifies_or_swaps_aux dec normalizeModel agg scene log)
      as (run & -> & [->|(object & Hch)]).
    + by apply IH.
    + apply IH.
      * rewrite Hch. destruct Hpre as [rest ->].
        rewrite List.filter_app, <- app_assoc.
        apply prefix_app_r.
        replace (List.filter isHelper lights) with lights; [done|].
        clear -Hl. induction Hl as [|x l Hx _ IH]; simpl; [done|].
        by rewrite Hx, <- IH.
      * unfold models. rewrite Hch. apply models_after_swap.
Qed.

(** X24. In the viewer, whatever is dropped and however often, each load
    ending before the next begins: the scene keeps the three lights
    [initThree] put there, at its front, and never holds more than one
    object that is not a camera, a light or an axes helper. *)
Theorem viewer_shows_one_model_at_most
    (dec : Decoders) (normalizeModel : Object3D -> Object3D)
    (drops : list Aggregate) :
  exists scene' log',
    session dec normalizeModel drops initThree [] = Some (scene', log') /\
    [ambientLight; mainLight; fillLight] `prefix_of` children scene' /\
    length (models scene') <= 1.
Proof.
  destruct (session_total dec normalizeModel drops initThree [])
    as [[scene' log'] Hs].
  exists scene', log'. split; [done|].
  apply (session_invariant dec normalizeModel drops initThree [] scene' log');
    try done.
  - repeat constructor.
  - simpl. lia.
Qed.

(** ** Resolving what a folder drop aggregated *)

(** X11. After an orderly drop a file is found under its full path
    without the leading slash, and a file's bare name finds nothing when
    the file lies in a dropped folder.  A reference that, once its leading
    [./] or [/] is stripped, is the path of a dropped file resolves to a
    new object URL on that file (the paths being distinct).  A reference
    that is the path of none is handed back unresolved, provided it is not
    [__proto__] or the name of a member of [Object.prototype] and no
    dropped file has the path [/__proto__]; if it is such a name,
    [URL.createObjectURL] throws. *)
Theorem folder_drop_resolves_by_path_only
    (items : list Item) (st : AggState) (agg : Aggregate)
    (url : string) (store : list Blob) :
  orderlyDrop items = true ->
  steps (getFilesFromItemList items) st ->
  promise st = Fulfilled agg ->
  (forall p f,
     NoDup (keyOf <$> dropFiles items) ->
     (p, f) ∈ dropFiles items ->
     stripLeading url = slice1 p ->
     outerURLModifier agg.2 url store =
       (ObjectURL (length store), store ++ [OfFile f])) /\
  ((forall pf, pf ∈ dropFiles items -> keyOf pf <> stripLeading url) ->
   builtinName (stripLeading url) = false ->
   (forall pf, pf ∈ dropFiles items -> keyOf pf <> "__proto__") ->
   outerURLModifier agg.2 url store = (Reference url, store)) /\
  ((forall pf, pf ∈ dropFiles items -> keyOf pf <> stripLeading url) ->
   builtinName (stripLeading url) = true ->
   outerURLModifier agg.2 url store = (Thrown, store)).
Proof.
  intros Hdrop Hsteps Hp.
  destruct (getFilesFromItemList_orderly items Hdrop) as [Hinit _].
  destruct (orderly_fulfilled _ _ _ (steps_orderly _ _ _ Hinit Hsteps) Hp)
    as (registered & Hperm & ->). simpl. unfold outerURLModifier. cbv zeta.
  split_and!.
  - intros p f Hnd Hin ->.
    by rewrite (readKey_stored _ _ _ (tableOf_perm_lookup _ _ _ _ Hperm Hnd Hin)).
  - intros Hmiss Hb Hproto.
    by rewrite (readKey_absent _ _ (tableOf_miss _ _ _ Hperm Hmiss) Hb
                  (tableOf_miss _ _ _ Hperm Hproto)).
  - intros Hmiss Hb.
    by rewrite (readKey_builtin _ _ (tableOf_miss _ _ _ Hperm Hmiss) Hb).
Qed.

Lemma folder_drop_resolves_by_path_only_witness :
  let model := mkFile "a.obj" "v 0 0 0" false in
  let texture := mkFile "tex.png" "PNG" false in
  let items := [fileItem (Directory [FileEntry "/d/a.obj" (Some model);
                                     FileEntry "/d/tex.png" (Some texture)])] in
  let st := drain 3 (getFilesFromItemList items) in
  outerURLModifier (filesMap st) "tex.png" [] = (Reference "tex.png", []).
Proof.
  intros model texture items st.
  assert (Hprom : promise st = Fulfilled (files st, filesMap st))
    by (vm_compute; reflexivity).
  refine (proj1 (proj2 (folder_drop_resolves_by_path_only items st _ "tex.png" []
                          eq_refl (drain_steps 3 _) Hprom)) _ eq_refl _).
  - intros pf Hin. apply list_elem_of_In in Hin. simpl in Hin.
    destruct Hin as [<-|[<-|[]]]; discriminate.
  - intros pf Hin. apply list_elem_of_In in Hin. simpl in Hin.
    destruct Hin as [<-|[<-|[]]]; discriminate.
Defined.
